(** * goo.gl scanner: a shallow embedding of [goo.gl.py] and its properties

    The development follows the Python source function by function:
    the combinatorial sequencer ([_url_suffix_to_index],
    [_get_next_url_suffix], the [itertools.product] enumeration), the
    ledger ([_initialize_csv], [_find_last_processed_url],
    [save_result]), the warning-page extractor, the resolution
    classifier ([resolve_goo_gl_url]) and the scan driver
    ([scan_url_combinations]).

    Modelling conventions.
    - A Python [str] is a [list ascii]; a character is a code point in
      the range U+0000..U+00FF.  String literals are written with [lit].
    - A Python [int] is a [Z]; a length or a position is a [nat].
    - A call that may raise returns a [py_result]; [try ... except] is a
      match on it.
    - The network ([session.get]), the clock ([time.strftime]) and
      [html.unescape] belong to the environment and are parameters of
      the scanner section. *)

From Stdlib Require Import ZArith Lia Ascii String List Bool.
From Stdlib Require Import DecimalString.
From stdpp Require Import base list strings.

Local Open Scope Z_scope.

(** ** Python values *)

Abbreviation str := (list ascii).

Definition lit (s : string) : str := list_ascii_of_string s.

(** The exceptions the modelled calls raise; [msg] is [str(e)].
    [Timeout], [ConnectionError] and [RequestException] are those of
    [requests.exceptions] (the first two are subclasses of the third). *)
Inductive exn : Type :=
| ValueError (msg : str)
| KeyError (msg : str)
| Timeout
| ConnectionError
| RequestException (msg : str).

Inductive py_result (A : Type) : Type :=
| Return (a : A)
| Raise (e : exn).

Arguments Return {A} a.
Arguments Raise {A} e.

(** [chars.index(c)]: the position of the first occurrence, [ValueError]
    when there is none. *)
Fixpoint str_index (c : ascii) (chars : str) : py_result nat :=
  match chars with
  | [] => Raise (ValueError (lit "substring not found"))
  | d :: rest =>
      if decide (d = c) then Return 0%nat
      else match str_index c rest with
           | Return n => Return (S n)
           | Raise e => Raise e
           end
  end.

Definition len (s : str) : Z := Z.of_nat (length s).

(** ** The alphabet *)

Definition ascii_lowercase : str := lit "abcdefghijklmnopqrstuvwxyz".
Definition ascii_uppercase : str := lit "ABCDEFGHIJKLMNOPQRSTUVWXYZ".
Definition ascii_letters : str := ascii_lowercase ++ ascii_uppercase.
Definition digits : str := lit "0123456789".

(** [chars = string.ascii_letters + string.digits] *)
Definition chars : str := ascii_letters ++ digits.

(** ** Combinatorial sequencer *)

(** The body of the [for i, char in enumerate(suffix)] loop of
    [_url_suffix_to_index]; [None] is the early [return 0] of the
    [except ValueError] clause. *)
Fixpoint index_loop (chars : str) (length : nat) (i : nat) (suffix : str)
    (index : Z) : option Z :=
  match suffix with
  | [] => Some index
  | char :: rest =>
      match str_index char chars with
      | Return char_index =>
          index_loop chars length (S i) rest
            (index + Z.of_nat char_index * len chars ^ Z.of_nat (length - 1 - i))
      | Raise _ => None
      end
  end.

Definition _url_suffix_to_index (suffix chars : str) (length : nat) : Z :=
  if negb (Nat.eqb (List.length suffix) length) then 0
  else
    match index_loop chars length 0 suffix 0 with
    | Some index => index
    | None => 0
    end.

(** The [for i in range(length - 1, -1, -1)] loop of
    [_get_next_url_suffix], counted by the number [n] of positions still
    to visit (so [i = n - 1]).  [None] is the early [return None] of the
    [except ValueError] clause.  The lookups [suffix_list[i]] and
    [chars[...]] cannot fail: [i] is below the length of the list, and
    the index into [chars] is below [len(chars)]; their [None] branches
    are never taken. *)
Fixpoint next_loop (chars : str) (n : nat) (suffix_list : str) (carry : Z)
    : option (str * Z) :=
  match n with
  | O => Some (suffix_list, carry)
  | S i =>
      if carry =? 0 then Some (suffix_list, carry)
      else
        match suffix_list !! i with
        | None => None
        | Some c =>
            match str_index c chars with
            | Raise _ => None
            | Return current_index =>
                let new_index := Z.of_nat current_index + carry in
                if new_index <? len chars then
                  match chars !! Z.to_nat new_index with
                  | Some d => next_loop chars i (<[i := d]> suffix_list) 0
                  | None => None
                  end
                else
                  match chars !! 0%nat with
                  | Some d => next_loop chars i (<[i := d]> suffix_list) 1
                  | None => None
                  end
            end
        end
  end.

Definition _get_next_url_suffix (current_suffix chars : str) (length : nat)
    : option str :=
  if negb (Nat.eqb (List.length current_suffix) length) then None
  else
    match next_loop chars length current_suffix 1 with
    | None => None
    | Some (suffix_list, carry) =>
        if carry =? 1 then None else Some suffix_list
    end.

(** [itertools.product(chars, repeat=length)], in the order in which the
    iterator yields: the rightmost position advances fastest. *)
Fixpoint product (chars : str) (length : nat) : list str :=
  match length with
  | O => [[]]
  | S n => c ← chars; (c ::.) <$> product chars n
  end.

(** Modelled from the spec: [decode(ordinal, length)], which the source
    does not define (its only ordinal-to-identifier map is the position
    in the [itertools.product] enumeration).  Following section 4.1 it is
    the inverse positional mapping: [length] symbols, digits taken from
    the low end, padded with the alphabet's first symbol; [None] is the
    [OutOfRange] failure for [ordinal >= alphabetSize^length]. *)
Fixpoint decode_loop (chars : str) (length : nat) (ordinal : Z) (acc : str)
    : option str :=
  match length with
  | O => Some acc
  | S k =>
      match chars !! Z.to_nat (ordinal mod len chars) with
      | Some d => decode_loop chars k (ordinal / len chars) (d :: acc)
      | None => None
      end
  end.

Definition decode (ordinal : Z) (length : nat) : option str :=
  if (ordinal <? 0) || (len chars ^ Z.of_nat length <=? ordinal) then None
  else decode_loop chars length ordinal [].

(** ** String operations of the Python library *)

Definition truthy (s : str) : bool :=
  match s with [] => false | _ => true end.

(** [str.lower()] on U+0000..U+00FF: the upper-case letters are A-Z,
    U+00C0..U+00D6 and U+00D8..U+00DE, each 32 below its lower-case form. *)
Definition lower_char (c : ascii) : ascii :=
  let n := nat_of_ascii c in
  if ((65 <=? n) && (n <=? 90) || (192 <=? n) && (n <=? 214)
      || (216 <=? n) && (n <=? 222))%nat
  then ascii_of_nat (n + 32) else c.

Definition lower (s : str) : str := lower_char <$> s.

(** [str.isspace()] for one character, which is also what [\s] matches
    and what [str.strip()] removes. *)
Definition isspace (c : ascii) : bool :=
  let n := nat_of_ascii c in
  ((9 <=? n) && (n <=? 13) || (28 <=? n) && (n <=? 32)
   || (n =? 133) || (n =? 160))%nat.

Definition isdigit (c : ascii) : bool :=
  let n := nat_of_ascii c in ((48 <=? n) && (n <=? 57))%nat.

(** [s.startswith(p)] *)
Fixpoint startswith (p s : str) : bool :=
  match p, s with
  | [], _ => true
  | _ :: _, [] => false
  | a :: p', b :: s' => bool_decide (a = b) && startswith p' s'
  end.

(** [w in s] *)
Fixpoint str_in (w s : str) : bool :=
  startswith w s ||
  match s with
  | [] => false
  | _ :: s' => str_in w s'
  end.

(** [s.split(sep)] for a non-empty [sep]: separators are found from the
    left and do not overlap.  [skip] counts the characters of a separator
    still to pass over, [cur] holds the current piece in reverse. *)
Fixpoint split_go (sep : str) (skip : nat) (cur : str) (s : str) : list str :=
  match s with
  | [] => [rev cur]
  | c :: t =>
      match skip with
      | S n => split_go sep n cur t
      | O =>
          if startswith sep s
          then rev cur :: split_go sep (length sep - 1) [] t
          else split_go sep 0 (c :: cur) t
      end
  end.

Definition str_split (sep s : str) : list str := split_go sep 0 [] s.

(** [l[-1]] of a list of strings known to be non-empty *)
Definition last_piece (l : list str) : str := default [] (last l).

(** [s.replace(old, new)] for a non-empty [old] *)
Fixpoint replace_go (old new : str) (skip : nat) (s : str) : str :=
  match s with
  | [] => []
  | c :: t =>
      match skip with
      | S n => replace_go old new n t
      | O =>
          if startswith old s
          then new ++ replace_go old new (length old - 1) t
          else c :: replace_go old new 0 t
      end
  end.

Definition str_replace (old new s : str) : str := replace_go old new 0 s.

Fixpoint lstrip (s : str) : str :=
  match s with
  | c :: t => if isspace c then lstrip t else s
  | [] => []
  end.

(** [s.strip()] *)
Definition strip (s : str) : str := rev (lstrip (rev (lstrip s))).

(** [str(n)] for an [int] *)
Definition str_of_int (n : Z) : str := lit (NilZero.string_of_int (Z.to_int n)).

(** ** Regular expressions ([re.findall] with [re.IGNORECASE])

    The constructs the scanner's patterns use, matched by backtracking
    with greedy quantifiers, as [re] does.  A continuation receives the
    rest of the text and the text of group 1. *)

Inductive atom : Type :=
| AChar (c : ascii)
| ASpace
| ADigit.

Inductive regex : Type :=
| Lit (s : str)
| Set_ (negated : bool) (items : list atom)
| Cat (r1 r2 : regex)
| Opt (r : regex)
| Star (r : regex)
| Grp (r : regex).

Definition Plus (r : regex) : regex := Cat r (Star r).

Infix "⋅" := Cat (at level 60, right associativity).

Definition atom_matches (c : ascii) (a : atom) : bool :=
  match a with
  | AChar d => bool_decide (lower_char c = lower_char d)
  | ASpace => isspace c
  | ADigit => isdigit c
  end.

(** The text left after a literal, compared without regard to case. *)
Fixpoint strip_literal (l s : str) : option str :=
  match l, s with
  | [], _ => Some s
  | _ :: _, [] => None
  | a :: l', b :: s' =>
      if bool_decide (lower_char a = lower_char b) then strip_literal l' s'
      else None
  end.

Fixpoint rmatch {R : Type} (r : regex) (s : str) (g : option str)
    (k : str → option str → option R) {struct r} : option R :=
  match r with
  | Lit l =>
      match strip_literal l s with
      | Some s' => k s' g
      | None => None
      end
  | Set_ negated items =>
      match s with
      | [] => None
      | c :: s' =>
          if xorb negated (existsb (atom_matches c) items) then k s' g
          else None
      end
  | Cat r1 r2 => rmatch r1 s g (λ s' g', rmatch r2 s' g' k)
  | Opt r1 =>
      match rmatch r1 s g k with
      | Some x => Some x
      | None => k s g
      end
  | Star r1 =>
      (fix star (n : nat) (s : str) (g : option str) : option R :=
         match n with
         | O => k s g
         | S n' =>
             match rmatch r1 s g
                     (λ s' g', if (length s' <? length s)%nat
                               then star n' s' g' else None) with
             | Some x => Some x
             | None => k s g
             end
         end) (length s) s g
  | Grp r1 =>
      rmatch r1 s g (λ s' _, k s' (Some (take (length s - length s') s)))
  end.

(** One match attempt at the head of [s]: the text consumed and group 1. *)
Definition match_here (r : regex) (s : str) : option (str * option str) :=
  rmatch r s None (λ s' g, Some (take (length s - length s') s, g)).

(** What [findall] reports for a match: group 1 when the pattern has a
    group, the whole match otherwise. *)
Definition reported (m : str * option str) : str :=
  match m.2 with
  | Some g => g
  | None => m.1
  end.

Fixpoint findall_go (r : regex) (skip : nat) (s : str) : list str :=
  match s with
  | [] =>
      match skip, match_here r [] with
      | O, Some m => [reported m]
      | _, _ => []
      end
  | _ :: t =>
      match skip with
      | S n => findall_go r n t
      | O =>
          match match_here r s with
          | Some m => reported m :: findall_go r (length m.1 - 1) t
          | None => findall_go r 0 t
          end
      end
  end.

Definition findall (r : regex) (s : str) : list str := findall_go r 0 s.

(** ** Warning-page extractor *)

Definition dq : ascii := "034"%char.
Definition sq : ascii := "039"%char.

Definition not_in (cs : str) : regex := Set_ true (AChar <$> cs).
Definition one_of (cs : str) : regex := Set_ false (AChar <$> cs).
Definition ws : regex := Set_ false [ASpace].
Definition not_query_end : regex :=
  Set_ true [AChar "&"%char; ASpace; AChar sq; AChar dq].

(** A quoted key, a colon, and a quoted group of one or more characters
    other than the double quote: the JSON-style patterns. *)
Definition json_field (key : string) : regex :=
  Lit ([dq] ++ lit key ++ [dq] ++ lit ":" ++ [dq])
  ⋅ Grp (Plus (not_in [dq])) ⋅ Lit [dq].

(** The key, an equals sign, and a group of one or more characters other
    than ampersand, white space and the two quotes: the query-parameter
    patterns. *)
Definition query_param (key : string) : regex :=
  Lit (lit key ++ lit "=") ⋅ Grp (Plus not_query_end).

(** An href attribute whose double-quoted value, the group, starts with
    http:// or https://: the head of the three link patterns. *)
Definition href_url : regex :=
  Lit (lit "href=" ++ [dq])
  ⋅ Grp (Lit (lit "http") ⋅ Opt (Lit (lit "s")) ⋅ Lit (lit "://")
         ⋅ Plus (not_in [dq]))
  ⋅ Lit [dq].

(** An assignment to [target] of a quoted, non-empty text, the group:
    the JavaScript patterns. *)
Definition js_assign (target : string) : regex :=
  Lit (lit target) ⋅ Star ws ⋅ Lit (lit "=") ⋅ Star ws
  ⋅ one_of [dq; sq] ⋅ Grp (Plus (not_in [dq; sq])) ⋅ one_of [dq; sq].

Definition patterns : list regex :=
  [ json_field "redirect_url";
    json_field "url";
    json_field "target";
    query_param "redirect_url";
    query_param "url";
    query_param "continue";
    href_url ⋅ Star (not_in (lit ">")) ⋅ Lit (lit ">Continue");
    href_url ⋅ Star (not_in (lit ">")) ⋅ Lit (lit ">") ⋅ Star ws
      ⋅ Lit (lit "Continue");
    href_url ⋅ Star (not_in (lit ">")) ⋅ Lit (lit "class=" ++ [dq])
      ⋅ Star (not_in [dq]) ⋅ Lit (lit "continue") ⋅ Star (not_in [dq])
      ⋅ Lit [dq];
    js_assign "window.location.href";
    js_assign "window.location";
    js_assign "location.href";
    Lit (lit "content=" ++ [dq] ++ lit "0;url=") ⋅ Grp (Plus (not_in [dq]))
      ⋅ Lit [dq];
    Lit (lit "content=" ++ [dq]) ⋅ Plus (Set_ false [ADigit]) ⋅ Lit (lit ";")
      ⋅ Star ws ⋅ Lit (lit "url=") ⋅ Grp (Plus (not_in [dq])) ⋅ Lit [dq] ].

(** http:// or https:// and one or more characters other than white
    space, angle brackets and the two quotes: the fallback pattern. *)
Definition bare_url : regex :=
  Lit (lit "http") ⋅ Opt (Lit (lit "s")) ⋅ Lit (lit "://")
  ⋅ Plus (Set_ true [ASpace; AChar "<"%char; AChar ">"%char; AChar dq;
                     AChar sq]).

Definition skip_domains : list str :=
  [ lit "google.com"; lit "goo.gl"; lit "googleapis.com";
    lit "googleusercontent.com"; lit "gstatic.com";
    lit "googletagmanager.com"; lit "googlesyndication.com";
    lit "doubleclick.net"; lit "googlebots.com" ].

(** The [for domain in skip_domains] loop; [true] when it reaches its
    [return False]. *)
Fixpoint skipped (domains : list str) (url_lower : str) : bool :=
  match domains with
  | [] => false
  | domain :: rest =>
      if str_in domain url_lower then true else skipped rest url_lower
  end.

Definition is_valid_redirect_url (url : str) : bool :=
  if negb (truthy url) || (len url <? 10) then false
  else
    let url_lower := lower url in
    if skipped skip_domains url_lower then false
    else if negb (startswith (lit "http://") url
                  || startswith (lit "https://") url) then false
    else true.

(** The escaped separators undone for a pattern match. *)
Definition unescape_separators (url : str) : str :=
  let url := str_replace (lit "\u003d") (lit "=") url in
  let url := str_replace (lit "\u0026") (lit "&") url in
  let url := str_replace (lit "%3D") (lit "=") url in
  str_replace (lit "%26") (lit "&") url.

(** ** The scanner and its environment *)

(** A CSV row as [csv.reader] yields it and [csv.writer] takes it. *)
Abbreviation row := (list str).

(** [requests.Response]: the fields the scanner reads.  [headers] is the
    case-insensitive dictionary of [requests], kept as an association
    list whose lookup compares header names without regard to case. *)
Record response : Type := {
  status_code : Z;
  headers : list (str * str);
  text : str;
  url : str
}.

(** [response.headers.get(name, default)] *)
Fixpoint headers_get (headers : list (str * str)) (name default : str) : str :=
  match headers with
  | [] => default
  | (k, v) :: rest =>
      if bool_decide (lower k = lower name) then v
      else headers_get rest name default
  end.

(** The state of a [GoogleShortenerScanner]: the contents of
    [output_file] as the rows written to it ([None] while the file does
    not exist; reading the rows back can fail, see [row_readable]), the flag, the
    two counters, and the number of readings taken of the clock.  The
    session and the delay do not change and carry no modelled state. *)
Record scanner : Type := {
  output_file : option (list row);
  skip_404 : bool;
  processed_count : Z;
  found_count : Z;
  clock : nat
}.

Definition header_row : row :=
  [lit "short_url"; lit "destination_url"; lit "status"; lit "timestamp"].

Definition _initialize_csv (self : scanner) : scanner :=
  match output_file self with
  | None =>
      {| output_file := Some [header_row];
         skip_404 := skip_404 self;
         processed_count := processed_count self;
         found_count := found_count self;
         clock := clock self |}
  | Some _ => self
  end.

(** [GoogleShortenerScanner(output_file, delay, skip_404)], given what the
    file system holds at [output_file]. *)
Definition new_scanner (file : option (list row)) (skip : bool) : scanner :=
  _initialize_csv
    {| output_file := file; skip_404 := skip;
       processed_count := 0; found_count := 0; clock := 0 |}.

(** The body of [for row in reader] in [_find_last_processed_url]. *)
Definition last_url_step (length : nat) (last_url : option str) (r : row)
    : option str :=
  match r with
  | [] => last_url
  | short_url :: _ =>
      if str_in (lit "/goo.gl/") short_url then
        let suffix := last_piece (str_split (lit "/goo.gl/") short_url) in
        if Nat.eqb (List.length suffix) length then Some suffix
        else last_url
      else last_url
  end.

(** [csv.field_size_limit()]: reading a field with more characters
    than this makes [csv.reader] raise [csv.Error]. *)
Definition field_size_limit : Z := 131072.

(** Whether [csv.reader] yields the row as it was written, rather than
    raising. *)
Definition row_readable (r : row) : bool :=
  forallb (λ field, len field <=? field_size_limit) r.

(** The [for row in reader] loop of [_find_last_processed_url], with
    [last_url_step] as its body; [None] when the reader raises on a
    row. *)
Fixpoint read_records (length : nat) (last_url : option str)
    (records : list row) : option (option str) :=
  match records with
  | [] => Some last_url
  | r :: rest =>
      if row_readable r
      then read_records length (last_url_step length last_url r) rest
      else None
  end.

(** The whole body is inside [try ... except Exception], whose handler
    falls through to [return None]: so do [next(reader)] on a file
    without a first row ([StopIteration]) and a row the reader raises
    on ([csv.Error]). *)
Definition _find_last_processed_url (self : scanner) (length : nat)
    : option str :=
  match output_file self with
  | None => None
  | Some rows =>
      match rows with
      | [] => None
      | header :: records =>
          if row_readable header then
            match read_records length None records with
            | Some (Some last_url) =>
                if truthy last_url then Some last_url else None
            | Some None => None
            | None => None
            end
          else None
      end
  end.

Definition not_found_status (status : str) : bool :=
  bool_decide (status ∈ [lit "404_error"; lit "link_not_found"]).

Section Scanner.

(** [html.unescape] *)
Variable html_unescape : str → str.
(** [session.get(short_url, allow_redirects=False, timeout=10)] *)
Variable session_get : str → py_result response.
(** [time.strftime('%Y-%m-%d %H:%M:%S')] at the n-th reading of the clock *)
Variable strftime : nat → str.

(** What the first loop computes from a match before validating it. *)
Definition clean_match (m : str) : str :=
  html_unescape (unescape_separators (strip m)).

(** [for match in matches]: [Some url] is a [return url]. *)
Fixpoint try_matches (matches : list str) : option str :=
  match matches with
  | [] => None
  | m :: rest =>
      let url := clean_match m in
      if is_valid_redirect_url url then Some url else try_matches rest
  end.

(** [for pattern in patterns] *)
Fixpoint try_patterns (patterns : list regex) (html_content : str)
    : option str :=
  match patterns with
  | [] => None
  | pattern :: rest =>
      match try_matches (findall pattern html_content) with
      | Some url => Some url
      | None => try_patterns rest html_content
      end
  end.

(** [for url in all_urls], building [valid_urls] *)
Fixpoint collect_valid (all_urls : list str) : list str :=
  match all_urls with
  | [] => []
  | url :: rest =>
      if is_valid_redirect_url url
      then html_unescape url :: collect_valid rest
      else collect_valid rest
  end.

Definition _extract_redirect_from_warning_page (html_content : str)
    : option str :=
  match try_patterns patterns html_content with
  | Some url => Some url
  | None =>
      let all_urls := findall bare_url html_content in
      let valid_urls := collect_valid all_urls in
      match valid_urls with
      | url :: _ => Some url
      | [] => None
      end
  end.

Definition resolve_goo_gl_url (short_url : str) : str * str :=
  match session_get short_url with
  | Return response =>
      if status_code response =? 200 then
        let html_content := text response in
        if str_in (lit "Dynamic Link Not Found") html_content
           || str_in (lit "not found") (lower html_content)
        then (lit "NOT_FOUND", lit "link_not_found")
        else if str_in (lit "This link will no longer work") html_content
                || str_in (lit "goo.gl links will no longer function")
                     html_content
        then
          match _extract_redirect_from_warning_page html_content with
          | Some redirect_url =>
              if truthy redirect_url
              then (redirect_url, lit "resolved_from_warning")
              else (lit "WARNING_PAGE_NO_EXTRACT",
                    lit "warning_page_parse_failed")
          | None =>
              (lit "WARNING_PAGE_NO_EXTRACT", lit "warning_page_parse_failed")
          end
        else (url response, lit "direct_200")
      else if bool_decide (status_code response ∈ [301; 302; 303; 307; 308])
      then
        let redirect_url := headers_get (headers response) (lit "Location") [] in
        if truthy redirect_url then (redirect_url, lit "direct_redirect")
        else (lit "NO_LOCATION_HEADER", lit "redirect_without_location")
      else if status_code response =? 404 then
        (lit "NOT_FOUND", lit "404_error")
      else
        (lit "HTTP_" ++ str_of_int (status_code response),
         lit "http_error_" ++ str_of_int (status_code response))
  | Raise Timeout => (lit "TIMEOUT", lit "request_timeout")
  | Raise ConnectionError => (lit "CONNECTION_ERROR", lit "connection_failed")
  | Raise (RequestException msg) =>
      (lit "REQUEST_ERROR: " ++ msg, lit "request_exception")
  | Raise (ValueError msg) | Raise (KeyError msg) =>
      (lit "UNEXPECTED_ERROR: " ++ msg, lit "unexpected_error")
  end.

(** The status the classifier gives to the identifier [suffix]. *)
Definition status_of (suffix : str) : str :=
  (resolve_goo_gl_url (lit "https://goo.gl/" ++ suffix)).2.

(** [writer.writerow] on a file opened for appending; [open(..., 'a')]
    creates the file when it does not exist. *)
Definition append_row (file : option (list row)) (r : row) : option (list row) :=
  Some (default [] file ++ [r]).

Definition save_result (self : scanner) (short_url destination_url status : str)
    : scanner :=
  if skip_404 self && not_found_status status then self
  else
    {| output_file :=
         append_row (output_file self)
           [short_url; destination_url; status; strftime (clock self)];
       skip_404 := skip_404 self;
       processed_count := processed_count self;
       found_count := found_count self;
       clock := S (clock self) |}.

(** The variables of the [for combo in ...] loop that outlive one round. *)
Record loop_state : Type := {
  self : scanner;
  found_start : bool;
  current_index : Z
}.

Definition count_result (self : scanner) (status : str) : scanner :=
  {| output_file := output_file self;
     skip_404 := skip_404 self;
     processed_count := processed_count self + 1;
     found_count :=
       if negb (not_found_status status) then found_count self + 1
       else found_count self;
     clock := clock self |}.

(** One round of the loop for the combination [url_suffix]. *)
Definition scan_round (start_from : option str) (st : loop_state)
    (url_suffix : str) : loop_state :=
  if negb (found_start st)
     && negb (bool_decide (Some url_suffix = start_from))
  then
    {| self := self st; found_start := false;
       current_index := current_index st + 1 |}
  else
    let short_url := lit "https://goo.gl/" ++ url_suffix in
    let '(destination_url, status) := resolve_goo_gl_url short_url in
    let self1 := save_result (self st) short_url destination_url status in
    let self2 := count_result self1 status in
    {| self := self2; found_start := true;
       current_index := current_index st + 1 |}.

Definition scan_loop (start_from : option str) (st : loop_state)
    (combos : list str) : loop_state :=
  fold_left (scan_round start_from) combos st.

(** Where the scan starts: the caller's [start_from], or else the
    successor of the ledger's last identifier of this length. *)
Definition resume_point (self : scanner) (length : nat)
    (start_from : option str) : option str :=
  match start_from with
  | Some s => Some s
  | None =>
      match _find_last_processed_url self length with
      | Some s =>
          if truthy s then
            match _get_next_url_suffix s chars length with
            | Some next => if truthy next then Some next else None
            | None => None
            end
          else Some s
      | None => None
      end
  end.

(** [scan_url_combinations(length, start_from)], without the interrupt
    (a [KeyboardInterrupt] is an event from outside the program). *)
Definition scan_url_combinations (self0 : scanner) (length : nat)
    (start_from : option str) : py_result scanner :=
  let start_from := resume_point self0 length start_from in
  let start_index :=
    match start_from with
    | Some s =>
        if truthy s then Some (_url_suffix_to_index s chars length)
        else None
    | None => None
    end in
  let found_start :=
    match start_from with None => true | Some _ => false end in
  let st :=
    scan_loop start_from
      {| self := self0; found_start := found_start; current_index := 0 |}
      (product chars length) in
  Return (self st).

End Scanner.

(** ** Notions the properties are stated with *)

(** The position of a symbol in the alphabet (0 for a foreign symbol). *)
Definition pos (cs : str) (c : ascii) : nat :=
  match str_index c cs with
  | Return n => n
  | Raise _ => 0%nat
  end.

(** The base-[len cs] value of a string, most significant symbol first,
    each symbol counting for its position in [cs]. *)
Fixpoint ordinal (cs : str) (x : str) : Z :=
  match x with
  | [] => 0
  | c :: r => Z.of_nat (pos cs c) * len cs ^ Z.of_nat (length r) + ordinal cs r
  end.

(** An identifier of length [L]: [L] symbols of the alphabet. *)
Definition identifier (L : nat) (x : str) : Prop :=
  length x = L ∧ Forall (λ c, c ∈ chars) x.

(** [x] comes before [y] in the lexicographic order of two strings of
    one length, symbols compared by their alphabet position. *)
Inductive lex_lt (cs : str) : str → str → Prop :=
| lex_lt_here c d x y :
    (pos cs c < pos cs d)%nat → length x = length y →
    lex_lt cs (c :: x) (d :: y)
| lex_lt_next c x y :
    lex_lt cs x y → lex_lt cs (c :: x) (c :: y).

(** The last symbol of the alphabet, ['9']. *)
Definition last_symbol : ascii := "9"%char.

(** The identifier a ledger record carries, as [_find_last_processed_url]
    reads it: the last piece of the first field split at [/goo.gl/], for
    a record whose first field holds [/goo.gl/]. *)
Definition record_identifier (r : row) : option str :=
  match r with
  | [] => None
  | short_url :: _ =>
      if str_in (lit "/goo.gl/") short_url
      then Some (last_piece (str_split (lit "/goo.gl/") short_url))
      else None
  end.

(** The host of an absolute URL, in lower case: the text between [://]
    and the next [/], [?] or [#]. *)
Fixpoint after_scheme (url : str) : str :=
  if startswith (lit "://") url then drop 3 url
  else match url with
       | [] => []
       | _ :: t => after_scheme t
       end.

Fixpoint until_path (s : str) : str :=
  match s with
  | [] => []
  | c :: t =>
      if bool_decide (c ∈ lit "/?#") then [] else c :: until_path t
  end.

Definition url_host (url : str) : str := lower (until_path (after_scheme url)).

(** [s.endswith(p)] *)
Definition endswith (p s : str) : bool := startswith (rev p) (rev s).

(** A host belongs to the deny-list when it is one of the listed domains
    or a subdomain of one. *)
Definition host_denied (host : str) : bool :=
  existsb (λ domain, bool_decide (host = domain)
                     || endswith (lit "." ++ domain) host) skip_domains.

(** ** A concrete environment for examples *)

(** [html.unescape] on a text without [&], which it returns as it is. *)
Definition unescape_plain (s : str) : str := s.

(** A network that gives one answer to every request. *)
Definition always (answer : py_result response) : str → py_result response :=
  λ _, answer.

(** A clock that stands still. *)
Definition frozen_clock : nat → str := λ _, lit "2025-08-01 12:00:00".

Definition page (body : str) : response :=
  {| status_code := 200; headers := []; text := body;
     url := lit "https://goo.gl/aaaaaa" |}.

(** A ledger whose records are out of ordinal order. *)
Definition sample_ledger : list row :=
  [ header_row;
    [lit "https://goo.gl/aaaaab"; lit "NOT_FOUND"; lit "404_error";
     lit "2025-08-01 12:00:00"];
    [lit "https://goo.gl/abc"; lit "NOT_FOUND"; lit "404_error";
     lit "2025-08-01 12:00:01"];
    [lit "https://goo.gl/aaaaaa"; lit "NOT_FOUND"; lit "404_error";
     lit "2025-08-01 12:00:02"] ].

Definition sample_scanner (skip : bool) : scanner :=
  new_scanner (Some sample_ledger) skip.

(** ** The command line *)

(** The rows of the ledger file, none while the file does not exist. *)
Definition ledger_rows (self : scanner) : list row :=
  default [] (output_file self).

(** The first symbol of the alphabet, ['a']. *)
Definition first_symbol : ascii := "a"%char.

(** What [parser.parse_args()] returns, as far as the scanner uses it:
    [--length], [--start-from], [--test-url] and [--no-404].  The output
    path is represented by the contents of the file it names; the delay
    and the debug switch have no modelled effect. *)
Record args : Type := {
  args_length : nat;
  args_start_from : option str;
  args_test_url : option str;
  args_no_404 : bool
}.

Section Main.

Variable html_unescape : str → str.
Variable session_get : str → py_result response.
Variable strftime : nat → str.

(** [main()], given what the file system holds at the output path. *)
Definition main (file : option (list row)) (a : args) : py_result scanner :=
let scanner := new_scanner file (args_no_404 a) in
match args_test_url a with
| Some test_url =>
    if truthy test_url then
      let '(destination, status) :=
        resolve_goo_gl_url html_unescape session_get test_url in
      Return (save_result strftime scanner test_url destination status)
    else
      scan_url_combinations html_unescape session_get strftime scanner
        (args_length a) (args_start_from a)
| None =>
    scan_url_combinations html_unescape session_get strftime scanner
      (args_length a) (args_start_from a)
end.

End Main.

(** A ledger of a scan of length 1 that stopped after [8]. *)
Definition resumed_ledger : list row :=
  [ header_row;
    [lit "https://goo.gl/8"; lit "NOT_FOUND"; lit "404_error";
     lit "2025-08-01 12:00:00"] ].

(** [--test-url https://goo.gl/aaaaaa --no-404] *)
Definition test_args : args :=
  {| args_length := 6; args_start_from := None;
     args_test_url := Some (lit "https://goo.gl/aaaaaa");
     args_no_404 := true |}.

(** [--length 1] *)
Definition scan_args : args :=
  {| args_length := 1; args_start_from := None; args_test_url := None;
     args_no_404 := false |}.

(** A warning page with one destination outside the deny-list. *)
Definition warning_body : str :=
  lit "This link will no longer work https://example.org/landing".

(** ** Reading the ledger back *)

(** Whether every row of a ledger can be read back. *)
Definition readable (rows : list row) : bool := forallb row_readable rows.

(** The text after the last occurrence of [sep] in [s], wherever the
    occurrences lie; [None] when [sep] does not occur. *)
Fixpoint text_after_last (sep s : str) : option str :=
  match s with
  | [] => if startswith sep [] then Some [] else None
  | _ :: t =>
      match text_after_last sep t with
      | Some r => Some r
      | None => if startswith sep s then Some (drop (length sep) s) else None
      end
  end.

(** A ledger whose record holds two overlapping [/goo.gl/]. *)
Definition overlapping_ledger : list row :=
  [ header_row;
    [lit "https://goo.gl/goo.gl/x"; lit "NOT_FOUND"; lit "404_error";
     lit "2025-08-01 12:00:00"] ].

(** A ledger whose record has an empty identifier. *)
Definition empty_identifier_ledger : list row :=
  [ header_row;
    [lit "https://goo.gl/"; lit "NOT_FOUND"; lit "404_error";
     lit "2025-08-01 12:00:00"] ].

(** A ledger whose record has a destination of 131073 characters, one
    more than the reader accepts. *)
Definition oversized_ledger : list row :=
  [ header_row;
    [lit "https://goo.gl/aaaaaa"; replicate (Z.to_nat 131073) "x"%char;
     lit "direct_200"; lit "2025-08-01 12:00:00"] ].

(** ** Decimal character references *)

Fixpoint leading_digits (s : str) : str :=
  match s with
  | c :: t => if isdigit c then c :: leading_digits t else []
  | [] => []
  end.

Definition digits_value (ds : str) : N :=
  fold_left (λ n d, (10 * n + (N_of_ascii d - 48))%N) ds 0%N.

(** A reference [&#NN;] to a printable ASCII character at the head of
    [s]: the character, and the number of characters the reference
    takes. *)
Definition decimal_reference (s : str) : option (ascii * nat) :=
  if startswith (lit "&#") s then
    let ds := leading_digits (drop 2 s) in
    let n := digits_value ds in
    if truthy ds && startswith (lit ";") (drop (2 + length ds) s)
       && (32 <=? n)%N && (n <=? 126)%N
    then Some (ascii_of_N n, (length ds + 3)%nat)
    else None
  else None.

Fixpoint unescape_decimal_go (skip : nat) (s : str) : str :=
  match s with
  | [] => []
  | c :: t =>
      match skip with
      | S n => unescape_decimal_go n t
      | O =>
          match decimal_reference s with
          | Some (d, taken) => d :: unescape_decimal_go (taken - 1) t
          | None => c :: unescape_decimal_go 0 t
          end
      end
  end.

(** [html.unescape] on a text whose only character references are
    decimal ones, [&#NN;], to printable ASCII characters: each is
    replaced by its character, the rest is kept. *)
Definition unescape_decimal (s : str) : str := unescape_decimal_go 0 s.

(** A page whose only URL is on the service's own domain, with the dot
    of the domain written as a character reference. *)
Definition entity_body : str :=
  lit "{" ++ [dq] ++ lit "url" ++ [dq] ++ lit ":" ++ [dq]
  ++ lit "https://goo&#46;gl/xyz123" ++ [dq] ++ lit "}".

(** * Properties *)


(** ** [str.index] *)

Lemma str_index_elem (c : ascii) (l : str) :
  c ∈ l → ∃ n, str_index c l = Return n ∧ l !! n = Some c.
Proof.
  induction l as [|d l IH]; intros Hin.
  - by apply elem_of_nil in Hin.
  - simpl. destruct (decide (d = c)) as [->|Hne].
    + by exists 0%nat.
    + apply elem_of_cons in Hin as [->|Hin]; [done|].
      destruct (IH Hin) as (n & -> & Hn). by exists (S n).
Qed.

Lemma str_index_not_elem (c : ascii) (l : str) :
  c ∉ l → ∃ e, str_index c l = Raise e.
Proof.
  induction l as [|d l IH]; intros Hin; simpl.
  - eauto.
  - apply not_elem_of_cons in Hin as [Hne Hin].
    destruct (decide (d = c)); [congruence|].
    destruct (IH Hin) as [e ->]. eauto.
Qed.

Lemma str_index_lookup (l : str) (n : nat) (c : ascii) :
  NoDup l → l !! n = Some c → str_index c l = Return n.
Proof.
  intros Hnd. revert n. induction Hnd as [|d l Hd Hnd IH]; intros n Hn.
  - done.
  - destruct n as [|n]; simpl in *.
    + injection Hn as ->. by rewrite decide_True.
    + rewrite decide_False.
      * by rewrite (IH n Hn).
      * intros ->. apply Hd. by eapply list_elem_of_lookup_2.
Qed.

Lemma pos_lookup (cs : str) (c : ascii) : c ∈ cs → cs !! pos cs c = Some c.
Proof.
  intros Hin. unfold pos. by destruct (str_index_elem c cs Hin) as (n & -> & Hn).
Qed.

Lemma pos_lt (cs : str) (c : ascii) : c ∈ cs → (pos cs c < length cs)%nat.
Proof. intros Hin. eapply lookup_lt_Some, pos_lookup, Hin. Qed.

Lemma pos_of_lookup (cs : str) (n : nat) (c : ascii) :
  NoDup cs → cs !! n = Some c → pos cs c = n.
Proof. intros Hnd Hn. unfold pos. by rewrite (str_index_lookup cs n c). Qed.

Lemma str_index_pos (cs : str) (c : ascii) :
  c ∈ cs → str_index c cs = Return (pos cs c).
Proof.
  intros Hin. unfold pos. by destruct (str_index_elem c cs Hin) as (n & -> & Hn).
Qed.

(** ** Lists made of blocks of one length *)

Lemma bind_length_block {A B} (f : A → list B) (m : nat) (l : list A) :
  (∀ a, length (f a) = m) → length (l ≫= f) = (length l * m)%nat.
Proof.
  intros Hf. induction l as [|a l IH]; [done|].
  rewrite bind_cons, length_app, IH, Hf. simpl. lia.
Qed.

Lemma bind_lookup_block {A B} (f : A → list B) (m : nat) (l : list A)
    (i j : nat) (a : A) :
  (∀ a, length (f a) = m) → l !! i = Some a → (j < m)%nat →
  (l ≫= f) !! (i * m + j)%nat = f a !! j.
Proof.
  intros Hf. revert i. induction l as [|a' l IH]; intros i Hi Hj; [done|].
  rewrite bind_cons. destruct i as [|i]; simpl in Hi.
  - injection Hi as ->. simpl. by rewrite lookup_app_l by (rewrite Hf; lia).
  - rewrite lookup_app_r by (rewrite Hf; lia). rewrite Hf.
    replace (S i * m + j - m)%nat with (i * m + j)%nat by lia.
    by apply IH.
Qed.

(** ** Positional value *)

Section Alphabet.

Variable cs : str.
Hypothesis cs_nodup : NoDup cs.

Local Abbreviation b := (len cs).
Local Abbreviation valid := (Forall (λ c, c ∈ cs)).

Lemma base_pos (c : ascii) : c ∈ cs → 0 < b.
Proof. intros Hin%pos_lt. unfold len. lia. Qed.

Lemma ordinal_bounds (x : str) :
  valid x → 0 ≤ ordinal cs x < b ^ Z.of_nat (length x).
Proof.
  induction 1 as [|c r Hc Hr IH]; simpl length; simpl ordinal.
  - simpl. lia.
  - pose proof (pos_lt cs c Hc) as Hlt.
    rewrite Nat2Z.inj_succ, Z.pow_succ_r by lia.
    unfold len in *. nia.
Qed.

Lemma ordinal_snoc (x : str) (c : ascii) :
  ordinal cs (x ++ [c]) = ordinal cs x * b + Z.of_nat (pos cs c).
Proof.
  induction x as [|a x IH]; simpl.
  - lia.
  - rewrite IH, length_app. simpl length.
    replace (Z.of_nat (length x + 1)) with (Z.succ (Z.of_nat (length x))) by lia.
    rewrite Z.pow_succ_r by lia. lia.
Qed.

Lemma index_loop_ordinal (L i : nat) (suffix : str) (acc : Z) :
  valid suffix → (i + length suffix = L)%nat →
  index_loop cs L i suffix acc = Some (acc + ordinal cs suffix).
Proof.
  intros Hv. revert i acc.
  induction Hv as [|c r Hc Hr IH]; intros i acc HL; simpl.
  - f_equal. lia.
  - rewrite (str_index_pos cs c Hc).
    simpl in HL. rewrite IH by lia.
    replace (L - 1 - i)%nat with (length r) by lia.
    f_equal. lia.
Qed.

Lemma decode_loop_ordinal (x acc : str) :
  valid x → decode_loop cs (length x) (ordinal cs x) acc = Some (x ++ acc).
Proof.
  revert acc. induction x as [|c x IH] using rev_ind; intros acc Hv.
  - done.
  - apply Forall_app in Hv as [Hx Hc].
    apply Forall_cons in Hc as [Hc _].
    pose proof (pos_lt cs c Hc) as Hlt.
    rewrite length_app, Nat.add_comm. simpl.
    rewrite ordinal_snoc.
    assert (Hm : (ordinal cs x * b + Z.of_nat (pos cs c)) `mod` b
                 = Z.of_nat (pos cs c)).
    { rewrite Z.add_comm, Z.mod_add by (unfold len; lia).
      apply Z.mod_small. unfold len. lia. }
    assert (Hd : (ordinal cs x * b + Z.of_nat (pos cs c)) `div` b
                 = ordinal cs x).
    { rewrite Z.add_comm, Z.div_add by (unfold len; lia).
      rewrite Z.div_small by (unfold len; lia). lia. }
    rewrite Hm, Hd, Nat2Z.id, (pos_lookup cs c Hc), IH by done.
    by rewrite <- app_assoc.
Qed.

Lemma lex_lt_length (x y : str) : lex_lt cs x y → length x = length y.
Proof. induction 1; simpl; congruence. Qed.

Lemma lex_lt_ordinal (x y : str) :
  valid x → valid y → lex_lt cs x y → ordinal cs x < ordinal cs y.
Proof.
  intros Hx Hy Hlt. induction Hlt as [c d x y Hcd Hlen|c x y Hlt IH].
  - apply Forall_cons in Hx as [Hc Hx]. apply Forall_cons in Hy as [Hd Hy].
    pose proof (ordinal_bounds x Hx). pose proof (ordinal_bounds y Hy).
    simpl. rewrite Hlen in *.
    assert (0 < b ^ Z.of_nat (length y)) by lia.
    nia.
  - apply Forall_cons in Hx as [Hc Hx]. apply Forall_cons in Hy as [_ Hy].
    simpl. rewrite (lex_lt_length x y Hlt). specialize (IH Hx Hy). lia.
Qed.

Lemma next_loop_done (n : nat) (l : str) : next_loop cs n l 0 = Some (l, 0).
Proof. by destruct n. Qed.

(** The loop of [_get_next_url_suffix] adds one to the value of the
    positions it visits and leaves the others alone. *)
Lemma next_loop_spec (pre post : str) :
  valid pre →
  ∃ pre' carry,
    next_loop cs (length pre) (pre ++ post) 1 = Some (pre' ++ post, carry)
    ∧ valid pre' ∧ length pre' = length pre
    ∧ (carry = 0 ∨ carry = 1)
    ∧ ordinal cs pre + 1
      = ordinal cs pre' + carry * b ^ Z.of_nat (length pre).
Proof.
  revert post. induction pre as [|c p IH] using rev_ind; intros post Hv.
  - exists [], 1. simpl. repeat split; auto.
  - apply Forall_app in Hv as [Hp Hc]. apply Forall_cons in Hc as [Hc _].
    pose proof (pos_lt cs c Hc) as Hlt.
    rewrite length_app, Nat.add_comm. simpl next_loop.
    assert (Hget : ((p ++ [c]) ++ post) !! length p = Some c).
    { rewrite <- app_assoc. by apply list_lookup_middle. }
    assert (Hset : ∀ d, <[length p := d]> ((p ++ [c]) ++ post)
                        = (p ++ [d]) ++ post).
    { intros d. rewrite <- !app_assoc. simpl.
      rewrite insert_app_r_alt by lia. by rewrite Nat.sub_diag. }
    rewrite Hget, (str_index_pos cs c Hc).
    destruct (Z.ltb_spec (Z.of_nat (pos cs c) + 1) b) as [Hin|Hout].
    + destruct (lookup_lt_is_Some_2 cs (Z.to_nat (Z.of_nat (pos cs c) + 1)))
        as [d Hd]; [unfold len in Hin; lia|].
      rewrite Hd, Hset, next_loop_done.
      exists (p ++ [d]), 0. repeat split; auto.
      * apply Forall_app. split; [done|].
        apply Forall_cons. split; [|done]. by eapply list_elem_of_lookup_2.
      * rewrite ?length_app. simpl. lia.
      * rewrite !ordinal_snoc, (pos_of_lookup cs _ d cs_nodup Hd). lia.
    + destruct (lookup_lt_is_Some_2 cs 0%nat) as [d Hd]; [lia|].
      rewrite Hd, Hset, <- app_assoc. simpl app.
      destruct (IH (d :: post) Hp) as (p' & carry & -> & Hp' & Hlen & Hcy & Hval).
      exists (p' ++ [d]), carry. rewrite <- app_assoc. simpl app.
      repeat split; auto.
      * apply Forall_app. split; [done|].
        apply Forall_cons. split; [|done]. by eapply list_elem_of_lookup_2.
      * rewrite ?length_app. simpl. lia.
      * rewrite !ordinal_snoc, (pos_of_lookup cs _ d cs_nodup Hd).
        simpl length.
        replace (Z.of_nat (1 + length p)) with (Z.succ (Z.of_nat (length p)))
          by lia.
        rewrite Z.pow_succ_r by lia. unfold len in *. nia.
Qed.

Lemma index_loop_foreign (L i : nat) (suffix : str) (acc : Z) :
  ¬ valid suffix → index_loop cs L i suffix acc = None.
Proof.
  revert i acc. induction suffix as [|c r IH]; intros i acc Hnv.
  - destruct Hnv. constructor.
  - simpl. destruct (decide (c ∈ cs)) as [Hc|Hc].
    + rewrite (str_index_pos cs c Hc). apply IH.
      intros Hr. apply Hnv. by constructor.
    + by destruct (str_index_not_elem c cs Hc) as [e ->].
Qed.

Lemma product_length (L : nat) :
  length (product cs L) = (length cs ^ L)%nat.
Proof.
  induction L as [|L IH]; [done|].
  simpl. rewrite (bind_length_block _ (length cs ^ L)%nat); [done|].
  intros a. by rewrite length_fmap.
Qed.

Lemma product_lookup (x : str) :
  valid x → product cs (length x) !! Z.to_nat (ordinal cs x) = Some x.
Proof.
  induction 1 as [|c r Hc Hr IH]; [done|].
  pose proof (ordinal_bounds r Hr) as Hb.
  simpl length. simpl product. simpl ordinal.
  assert (Hpow : b ^ Z.of_nat (length r) = Z.of_nat (length cs ^ length r)).
  { unfold len. by rewrite Nat2Z.inj_pow. }
  rewrite Hpow in *.
  replace (Z.to_nat (Z.of_nat (pos cs c) * Z.of_nat (length cs ^ length r)
                     + ordinal cs r))
    with (pos cs c * (length cs ^ length r) + Z.to_nat (ordinal cs r))%nat
    by lia.
  rewrite (bind_lookup_block _ (length cs ^ length r)%nat cs _ _ c).
  - by rewrite list_lookup_fmap, IH.
  - intros a. by rewrite length_fmap, product_length.
  - by apply pos_lookup.
  - lia.
Qed.

End Alphabet.

(** ** The sequencer over the 62-symbol alphabet *)

Lemma chars_nodup : NoDup chars.
Proof. apply (bool_decide_unpack _). by vm_compute. Qed.

Lemma len_chars : len chars = 62.
Proof. reflexivity. Qed.

Lemma last_symbol_in : last_symbol ∈ chars.
Proof. apply (bool_decide_unpack _). by vm_compute. Qed.

Lemma pos_last_symbol : pos chars last_symbol = 61%nat.
Proof. reflexivity. Qed.

Lemma encode_ordinal (L : nat) (x : str) :
  identifier L x → _url_suffix_to_index x chars L = ordinal chars x.
Proof.
  intros [Hlen Hv]. unfold _url_suffix_to_index.
  rewrite (proj2 (Nat.eqb_eq _ _) Hlen). simpl.
  rewrite (index_loop_ordinal chars L 0 x 0 Hv) by (simpl; lia). lia.
Qed.

Lemma decode_ordinal (L : nat) (x : str) :
  identifier L x → decode (ordinal chars x) L = Some x.
Proof.
  intros [Hlen Hv]. unfold decode.
  pose proof (ordinal_bounds chars x Hv) as Hb. rewrite Hlen in Hb.
  destruct (Z.ltb_spec (ordinal chars x) 0); [lia|].
  destruct (Z.leb_spec (len chars ^ Z.of_nat L) (ordinal chars x)); [lia|].
  simpl. rewrite <- Hlen, (decode_loop_ordinal chars x [] Hv).
  by rewrite app_nil_r.
Qed.

Lemma ordinal_inj (L : nat) (x y : str) :
  identifier L x → identifier L y → ordinal chars x = ordinal chars y → x = y.
Proof.
  intros Hx Hy Heq. apply decode_ordinal in Hx, Hy. congruence.
Qed.

Lemma replicate_last_identifier (L : nat) :
  identifier L (replicate L last_symbol).
Proof.
  split; [apply length_replicate|].
  apply Forall_replicate, last_symbol_in.
Qed.

Lemma ordinal_replicate_last (L : nat) :
  ordinal chars (replicate L last_symbol) = 62 ^ Z.of_nat L - 1.
Proof.
  induction L as [|L IH]; [done|].
  simpl replicate. simpl ordinal.
  rewrite IH, length_replicate, pos_last_symbol, len_chars.
  rewrite (Nat2Z.inj_succ L), Z.pow_succ_r by lia. lia.
Qed.

(** The successor, read off the loop's specification. *)
Lemma successor_cases (L : nat) (x : str) :
  identifier L x →
  (_get_next_url_suffix x chars L = None
   ∧ ordinal chars x + 1 = 62 ^ Z.of_nat L)
  ∨ (∃ y, _get_next_url_suffix x chars L = Some y ∧ identifier L y
          ∧ ordinal chars y = ordinal chars x + 1).
Proof.
  intros [Hlen Hv]. unfold _get_next_url_suffix.
  rewrite (proj2 (Nat.eqb_eq _ _) Hlen). simpl negb. cbv iota.
  destruct (next_loop_spec chars chars_nodup x [] Hv)
    as (y & carry & Hrun & Hy & Hylen & Hcy & Hval).
  rewrite !app_nil_r, Hlen in Hrun. rewrite Hrun.
  pose proof (ordinal_bounds chars x Hv) as Hbx.
  pose proof (ordinal_bounds chars y Hy) as Hby.
  rewrite Hylen in Hby. rewrite Hlen, len_chars in *.
  destruct Hcy as [-> | ->]; simpl.
  - right. exists y. repeat split; [congruence|done|lia].
  - left. split; [done|lia].
Qed.

(** C1. For every identifier [x] of length [L] over the 62-symbol
    alphabet, decoding the ordinal that [_url_suffix_to_index] returns
    gives [x] back, that ordinal is the position of [x] in the
    [itertools.product] enumeration, and the encoding is strictly
    monotonic: when [x] comes before [y] in the lexicographic order of
    the alphabet, the ordinal of [x] is less than that of [y]. *)
Theorem encode_roundtrip_monotonic (L : nat) (x : str) :
  identifier L x →
  decode (_url_suffix_to_index x chars L) L = Some x
  ∧ product chars L !! Z.to_nat (_url_suffix_to_index x chars L) = Some x
  ∧ ∀ y, identifier L y → lex_lt chars x y →
         _url_suffix_to_index x chars L < _url_suffix_to_index y chars L.
Proof.
  intros Hx. rewrite (encode_ordinal L x Hx). split; [|split].
  - by apply decode_ordinal.
  - destruct Hx as [<- Hv]. by apply product_lookup.
  - intros y Hy Hlt. rewrite (encode_ordinal L y Hy).
    apply lex_lt_ordinal; [apply Hx | apply Hy | done].
Qed.

Lemma encode_roundtrip_monotonic_witness :
  identifier 2 (lit "a9")
  ∧ decode (_url_suffix_to_index (lit "a9") chars 2) 2 = Some (lit "a9").
Proof.
  assert (H : identifier 2 (lit "a9")).
  { split; [reflexivity|]. apply (bool_decide_unpack _). by vm_compute. }
  split; [exact H|].
  exact (proj1 (encode_roundtrip_monotonic 2 (lit "a9") H)).
Defined.

(** C2. For every identifier [x] of length [L], [_get_next_url_suffix]
    returns the identifier at the next ordinal, that is
    [decode (encode x + 1) L], which is also the entry after [x] in the
    enumeration; it returns nothing exactly when [x] is the last
    identifier, the one that holds the last alphabet symbol at every
    position. *)
Theorem successor_is_next_ordinal (L : nat) (x : str) :
  identifier L x →
  _get_next_url_suffix x chars L
    = decode (_url_suffix_to_index x chars L + 1) L
  ∧ _get_next_url_suffix x chars L
    = product chars L !! Z.to_nat (_url_suffix_to_index x chars L + 1)
  ∧ (_get_next_url_suffix x chars L = None ↔ x = replicate L last_symbol).
Proof.
  intros Hx. rewrite (encode_ordinal L x Hx).
  pose proof (ordinal_bounds chars x (proj2 Hx)) as Hb.
  rewrite (proj1 Hx), len_chars in Hb.
  destruct (successor_cases L x Hx) as [[Hnone Hmax] | (y & Hsome & Hy & Hval)].
  - rewrite Hnone. split; [|split].
    + unfold decode. rewrite len_chars.
      destruct (Z.leb_spec (62 ^ Z.of_nat L) (ordinal chars x + 1)); [|lia].
      by rewrite orb_true_r.
    + symmetry. apply lookup_ge_None.
      rewrite product_length.
      assert (Z.of_nat (length chars ^ L) = 62 ^ Z.of_nat L)
        by (by rewrite Nat2Z.inj_pow). lia.
    + split; [intros _|done].
      apply (ordinal_inj L); [done|apply replicate_last_identifier|].
      rewrite ordinal_replicate_last. lia.
  - rewrite Hsome, <- Hval. split; [|split].
    + symmetry. by apply decode_ordinal.
    + symmetry. destruct Hy as [<- Hv]. by apply product_lookup.
    + split; [done|]. intros ->.
      rewrite ordinal_replicate_last in Hval.
      pose proof (ordinal_bounds chars y (proj2 Hy)) as Hby.
      rewrite (proj1 Hy), len_chars in Hby. lia.
Qed.

Lemma successor_is_next_ordinal_witness :
  identifier 2 (lit "a9")
  ∧ _get_next_url_suffix (lit "a9") chars 2
    = decode (_url_suffix_to_index (lit "a9") chars 2 + 1) 2.
Proof.
  assert (H : identifier 2 (lit "a9")).
  { split; [reflexivity|]. apply (bool_decide_unpack _). by vm_compute. }
  split; [exact H|].
  exact (proj1 (successor_is_next_ordinal 2 (lit "a9") H)).
Defined.

(** C7, as the code has it.  [_url_suffix_to_index] returns the base-62
    ordinal, most significant symbol first and each symbol counting for
    its alphabet position, when the input is [L] symbols of the
    alphabet; for an input of another length, or with a character
    outside the alphabet, it returns 0 and raises nothing. *)
Theorem encode_total_zero_on_bad_input (L : nat) (x : str) :
  _url_suffix_to_index x chars L
  = if decide (length x = L ∧ Forall (λ c, c ∈ chars) x)
    then ordinal chars x else 0.
Proof.
  destruct (decide _) as [Hid|Hbad].
  - by apply encode_ordinal.
  - unfold _url_suffix_to_index.
    destruct (Nat.eqb_spec (length x) L) as [Hlen|Hlen]; [|done].
    simpl. rewrite index_loop_foreign; [done|]. intros Hv. by apply Hbad.
Qed.

(** C7, as stated, fails: an input with a character outside the alphabet
    and an input of the wrong length both get an ordinal, 0, the ordinal
    of the first identifier. *)
Lemma encode_bad_input_returns_zero :
  _url_suffix_to_index (lit "a!") chars 2 = 0
  ∧ _url_suffix_to_index (lit "abc") chars 2 = 0
  ∧ _url_suffix_to_index (lit "aa") chars 2 = 0.
Proof. repeat split. Qed.

(** ** Prefixes, substrings and splitting *)

Lemma startswith_spec (p s : str) :
  startswith p s = true ↔ ∃ rest, s = p ++ rest.
Proof.
  revert s. induction p as [|a p IH]; intros s; simpl.
  - split; [intros _; by exists s|done].
  - destruct s as [|c s].
    + split; [done|]. by intros [rest Hrest].
    + rewrite andb_true_iff, bool_decide_eq_true, IH. split.
      * intros [-> [rest ->]]. by exists rest.
      * intros [rest Heq]. injection Heq as -> ->. split; [done|by exists rest].
Qed.

Lemma str_in_spec (w s : str) :
  str_in w s = true ↔ ∃ pre post, s = pre ++ w ++ post.
Proof.
  induction s as [|c s IH].
  - simpl. rewrite orb_false_r, startswith_spec. split.
    + intros [rest Hrest]. by exists [], rest.
    + intros (pre & post & Heq). destruct pre; [by exists post|done].
  - simpl. rewrite orb_true_iff, startswith_spec, IH. split.
    + intros [[rest Hrest] | (pre & post & ->)].
      * by exists [], rest.
      * by exists (c :: pre), post.
    + intros (pre & post & Heq). destruct pre as [|a pre]; simpl in Heq.
      * left. by exists post.
      * injection Heq as -> ->. right. by exists pre, post.
Qed.

Lemma str_in_lower (w s : str) :
  str_in w s = true → str_in (lower w) (lower s) = true.
Proof.
  rewrite !str_in_spec. intros (pre & post & ->).
  exists (lower pre), (lower post). unfold lower. by rewrite !fmap_app.
Qed.

Lemma split_go_skip (sep u cur rest : str) :
  split_go sep (length u) cur (u ++ rest) = split_go sep 0 cur rest.
Proof.
  induction u as [|c u IH]; simpl; [done|]. exact IH.
Qed.

Lemma split_go_nonempty (sep : str) (skip : nat) (cur s : str) :
  split_go sep skip cur s ≠ [].
Proof.
  revert skip cur. induction s as [|c t IH]; intros skip cur; simpl; [done|].
  destruct skip; [|apply IH].
  destruct (startswith sep (c :: t)); [done|apply IH].
Qed.

Lemma last_piece_cons (x : str) (l : list str) :
  l ≠ [] → last_piece (x :: l) = last_piece l.
Proof. unfold last_piece. by destruct l. Qed.

(** The last piece of a split is the text after a separator and holds
    no separator itself; without a separator it is the whole text. *)
Lemma split_last_piece (sep : str) (n : nat) (s cur : str) :
  sep ≠ [] → (length s ≤ n)%nat →
  (str_in sep s = false → last_piece (split_go sep 0 cur s) = rev cur ++ s)
  ∧ (str_in sep s = true →
     ∃ pre, s = pre ++ sep ++ last_piece (split_go sep 0 cur s)
            ∧ str_in sep (last_piece (split_go sep 0 cur s)) = false).
Proof.
  intros Hsep. revert s cur. induction n as [|n IH]; intros s cur Hn.
  - destruct s; [|simpl in Hn; lia].
    assert (Hno : str_in sep [] = false) by (by destruct sep).
    rewrite Hno. simpl. split; [intros _; by rewrite app_nil_r|done].
  - destruct s as [|c t].
    { assert (Hno : str_in sep [] = false) by (by destruct sep).
      rewrite Hno. simpl. split; [intros _; by rewrite app_nil_r|done]. }
    simpl in Hn. simpl split_go. simpl str_in.
    destruct (startswith sep (c :: t)) eqn:Hsw.
    + apply startswith_spec in Hsw as [rest Hrest].
      destruct sep as [|a sep']; [done|]. simpl in Hrest.
      injection Hrest as -> ->. simpl length.
      replace (S (length sep') - 1)%nat with (length sep') by lia.
      rewrite split_go_skip.
      rewrite last_piece_cons by apply split_go_nonempty.
      assert (Hlen : (length rest ≤ n)%nat).
      { rewrite length_app in Hn. lia. }
      destruct (IH rest [] Hlen) as [Hfalse Htrue].
      split; [done|]. intros _.
      destruct (str_in (a :: sep') rest) eqn:Hin.
      * destruct (Htrue eq_refl) as (pre & Hpre & Hlast).
        exists (a :: sep' ++ pre). split; [|done].
        rewrite Hpre at 1. simpl. by rewrite <- !app_assoc.
      * rewrite (Hfalse eq_refl). simpl. exists []. by split.
    + simpl. destruct (IH t (c :: cur)) as [Hfalse Htrue]; [lia|].
      split.
      * intros Hin. rewrite (Hfalse Hin). simpl. by rewrite <- app_assoc.
      * intros Hin. destruct (Htrue Hin) as (pre & Hpre & Hlast).
        exists (c :: pre). split; [|done]. rewrite Hpre at 1. done.
Qed.

(** The identifier of a record follows a [/goo.gl/] of its first field
    and holds no [/goo.gl/] itself. *)
Lemma record_identifier_spec (r : row) (suffix : str) :
  record_identifier r = Some suffix →
  ∃ short_url rest pre,
    r = short_url :: rest
    ∧ short_url = pre ++ lit "/goo.gl/" ++ suffix
    ∧ str_in (lit "/goo.gl/") suffix = false.
Proof.
  destruct r as [|short_url rest]; [done|]. unfold record_identifier.
  destruct (str_in (lit "/goo.gl/") short_url) eqn:Hin; [|done].
  intros [= <-].
  destruct (split_last_piece (lit "/goo.gl/") (length short_url) short_url [])
    as [_ Htrue]; [by intros [=]|lia|].
  destruct (Htrue Hin) as (pre & Hpre & Hlast).
  by exists short_url, rest, pre.
Qed.

Lemma last_url_step_identifier (L : nat) (last_url : option str) (r : row) :
  last_url_step L last_url r
  = match record_identifier r with
    | Some suffix => if decide (length suffix = L) then Some suffix else last_url
    | None => last_url
    end.
Proof.
  destruct r as [|short_url rest]; [done|].
  unfold last_url_step, record_identifier.
  destruct (str_in _ short_url); [|done].
  destruct (Nat.eqb_spec (length (last_piece (str_split (lit "/goo.gl/") short_url))) L);
    by destruct (decide _).
Qed.

Lemma fold_last_url_step (L : nat) (records : list row) (init : option str) :
  fold_left (last_url_step L) records init
  = match last (filter (λ s, length s = L) (omap record_identifier records)) with
    | Some s => Some s
    | None => init
    end.
Proof.
  revert init. induction records as [|r records IH]; intros init; [done|].
  simpl fold_left. rewrite IH, last_url_step_identifier. simpl omap.
  destruct (record_identifier r) as [suffix|]; [|done].
  rewrite filter_cons. destruct (decide (length suffix = L)); [|done].
  rewrite last_cons. by destruct (last _).
Qed.

Lemma read_records_fold (L : nat) (records : list row) (init : option str) :
  read_records L init records
  = if forallb row_readable records
    then Some (fold_left (last_url_step L) records init)
    else None.
Proof.
  revert init. induction records as [|r records IH]; intros init; [done|].
  simpl. destruct (row_readable r); [apply IH|done].
Qed.

(** C3, as the code has it.  For a ledger file made of a header row and
    records, all of whose fields are within the field size limit of
    [csv], and for a positive length, [_find_last_processed_url]
    returns the identifier of the last record, in file order, whose
    identifier has the requested length, whatever its ordinal, and
    returns nothing when no record has an identifier of that length.
    The identifier of a record is the last piece of its first field
    split at [/goo.gl/], the separators being taken from the left
    without overlap. *)
Theorem find_resume_point_is_last_in_file (sc : scanner) (header : row)
    (records : list row) (L : nat) :
  (0 < L)%nat →
  output_file sc = Some (header :: records) →
  readable (header :: records) = true →
  _find_last_processed_url sc L
  = last (filter (λ s, length s = L) (omap record_identifier records)).
Proof.
  intros HL Hfile Hread. unfold _find_last_processed_url. rewrite Hfile.
  unfold readable in Hread. cbn [forallb] in Hread.
  apply andb_true_iff in Hread as [Hhead Hrest].
  rewrite Hhead, read_records_fold, Hrest, fold_last_url_step.
  destruct (last _) as [s|] eqn:Hlast; [|done].
  apply last_Some_elem_of, list_elem_of_filter in Hlast as [Hlen _].
  destruct s; [simpl in Hlen; lia|done].
Qed.

(** C3, as stated, fails.  In the first ledger the text after the last
    [/goo.gl/] of the record's first field is [x], of length 1, yet the
    resume point for length 1 is nothing and the one for length 8 is
    [goo.gl/x], the last piece of the split.  In the second ledger the
    record has the empty identifier, of length 0, yet the resume point
    for length 0 is nothing.  In the third ledger the record has the
    identifier [aaaaaa] and a field the reader raises on, and the
    resume point for length 6 is nothing. *)
Lemma find_resume_point_not_text_after_last :
  text_after_last (lit "/goo.gl/") (lit "https://goo.gl/goo.gl/x")
    = Some (lit "x")
  ∧ _find_last_processed_url (new_scanner (Some overlapping_ledger) false) 1
    = None
  ∧ _find_last_processed_url (new_scanner (Some overlapping_ledger) false) 8
    = Some (lit "goo.gl/x")
  ∧ text_after_last (lit "/goo.gl/") (lit "https://goo.gl/") = Some []
  ∧ _find_last_processed_url
      (new_scanner (Some empty_identifier_ledger) false) 0
    = None
  ∧ omap record_identifier (tail oversized_ledger) = [lit "aaaaaa"]
  ∧ _find_last_processed_url (new_scanner (Some oversized_ledger) false) 6
    = None.
Proof. repeat split; by vm_compute. Qed.

(** ** Validity of a candidate *)

Lemma skipped_spec (domains : list str) (u : str) :
  skipped domains u = true ↔ ∃ d, d ∈ domains ∧ str_in d u = true.
Proof.
  induction domains as [|d domains IH]; simpl.
  - split; [done|]. intros (d & Hd & _). by apply elem_of_nil in Hd.
  - destruct (str_in d u) eqn:Hin.
    + split; [intros _|done]. exists d. split; [left|done].
    + rewrite IH. split.
      * intros (d' & Hd' & Hin'). exists d'. split; [by right|done].
      * intros (d' & Hd' & Hin'). apply elem_of_cons in Hd' as [->|Hd'].
        -- congruence.
        -- by exists d'.
Qed.

(** C5, as the code has it.  A candidate is valid exactly when it has at
    least 10 characters, begins with [http://] or [https://] (in lower
    case), and no deny-listed domain name occurs anywhere in its
    lower-cased text, be it in the host, the path or the query. *)
Theorem valid_redirect_iff (url : str) :
  is_valid_redirect_url url = true
  ↔ 10 ≤ len url
    ∧ (startswith (lit "http://") url = true
       ∨ startswith (lit "https://") url = true)
    ∧ ∀ d, d ∈ skip_domains → ¬ ∃ pre post, lower url = pre ++ d ++ post.
Proof.
  unfold is_valid_redirect_url.
  assert (Hden : skipped skip_domains (lower url) = false
                 ↔ ∀ d, d ∈ skip_domains
                        → ¬ ∃ pre post, lower url = pre ++ d ++ post).
  { rewrite <- not_true_iff_false, skipped_spec. split.
    - intros Hno d Hd Hsub. apply Hno. exists d. split; [done|].
      by apply str_in_spec.
    - intros Hno (d & Hd & Hin). apply (Hno d Hd). by apply str_in_spec. }
  destruct (truthy url) eqn:Htr; cbn [negb orb].
  - destruct (Z.ltb_spec (len url) 10) as [Hshort|Hlong].
    + split; [done|]. intros [? _]. lia.
    + destruct (skipped skip_domains (lower url)) eqn:Hsk.
      * split; [done|]. intros (_ & _ & Hno). by apply Hden in Hno.
      * destruct (startswith (lit "http://") url
                  || startswith (lit "https://") url) eqn:Hpre; cbn [negb].
        -- apply orb_true_iff in Hpre. split; [intros _|done].
           split; [done|]. split; [done|]. by apply Hden.
        -- apply orb_false_iff in Hpre as [H1 H2]. split; [done|].
           intros (_ & [H|H] & _); congruence.
  - destruct url; [|done]. split; [done|]. intros [H _]. unfold len in H.
    simpl in H. lia.
Qed.

(** C5, as stated, fails: a candidate of sufficient length that begins
    with [https://] and whose host, [example.org], is outside the
    deny-list is rejected because a deny-listed name occurs in its query
    string. *)
Lemma valid_redirect_rejects_query_mention :
  let url := lit "https://example.org/?u=goo.gl" in
  is_valid_redirect_url url = false
  ∧ 10 ≤ len url
  ∧ startswith (lit "https://") url = true
  ∧ url_host url = lit "example.org"
  ∧ host_denied (url_host url) = false.
Proof. repeat split; by vm_compute. Qed.

(** ** Warning-page extractor *)

Section Extractor.

Variable html_unescape : str → str.

Local Abbreviation valid := (λ u, is_valid_redirect_url u = true).

Lemma try_matches_head (matches : list str) :
  try_matches html_unescape matches
  = head (filter valid (clean_match html_unescape <$> matches)).
Proof.
  induction matches as [|m matches IH]; [done|].
  simpl try_matches. rewrite fmap_cons, filter_cons.
  destruct (is_valid_redirect_url _) eqn:Hv.
  - by rewrite decide_True.
  - by rewrite decide_False by congruence.
Qed.

Lemma try_patterns_head (ps : list regex) (html_content : str) :
  try_patterns html_unescape ps html_content
  = head (filter valid
            (clean_match html_unescape
               <$> (ps ≫= λ p, findall p html_content))).
Proof.
  induction ps as [|p ps IH]; [done|].
  simpl try_patterns. rewrite bind_cons, fmap_app, filter_app.
  rewrite try_matches_head, IH.
  by destruct (filter valid (_ <$> findall p html_content)).
Qed.

Lemma collect_valid_filter (all_urls : list str) :
  collect_valid html_unescape all_urls
  = html_unescape <$> filter valid all_urls.
Proof.
  induction all_urls as [|u all_urls IH]; [done|].
  simpl collect_valid. rewrite filter_cons.
  destruct (is_valid_redirect_url u) eqn:Hv.
  - by rewrite decide_True, fmap_cons, IH.
  - by rewrite decide_False by congruence.
Qed.

(** The extractor written with filters.  The first tier takes the
    matches of the strategy patterns in pattern order, then in text
    order, strips each, undoes the escaped separators and the HTML
    entities, and returns the first cleaned match that is valid.  When
    there is none, the fallback takes the first bare [http(s)://]
    token that is valid as found in the text and undoes its HTML
    entities. *)
Lemma extract_two_tiers (html_content : str) :
  _extract_redirect_from_warning_page html_unescape html_content
  = match head (filter valid
                  (clean_match html_unescape
                     <$> (patterns ≫= λ p, findall p html_content))) with
    | Some url => Some url
    | None =>
        html_unescape <$> head (filter valid (findall bare_url html_content))
    end.
Proof.
  unfold _extract_redirect_from_warning_page.
  rewrite try_patterns_head, collect_valid_filter.
  destruct (head _); [done|].
  by destruct (filter valid (findall bare_url html_content)).
Qed.

End Extractor.

(** The fallback validates a token as it finds it: on this page no
    strategy pattern matches, and the one bare token is returned,
    escaped separator included, although its decoded form is too short
    to be valid. *)
Lemma fallback_validates_raw_token :
  let body := lit "https://%3D" in
  (patterns ≫= λ p, findall p body) = []
  ∧ findall bare_url body = [body]
  ∧ _extract_redirect_from_warning_page unescape_plain body = Some body
  ∧ clean_match unescape_plain body = lit "https://="
  ∧ is_valid_redirect_url (clean_match unescape_plain body) = false.
Proof. repeat split; by vm_compute. Qed.

(** C6.  The claim is right and the fallback tier breaks it: it applies
    the validity check to the token as found and undoes the HTML
    entities afterwards, where the first tier decodes before it checks.
    On a page whose only URL is on the service's own domain, with the
    dot written as a character reference, the first tier decodes its
    match to [https://goo.gl/xyz123] and rejects it; the fallback finds
    the same text as a bare token, accepts it undecoded, and returns
    [https://goo.gl/xyz123], which the validity check rejects; the
    classifier reports it as resolved. *)
Theorem fallback_returns_deny_listed_url :
  (patterns ≫= λ p, findall p entity_body) = [lit "https://goo&#46;gl/xyz123"]
  ∧ clean_match unescape_decimal (lit "https://goo&#46;gl/xyz123")
    = lit "https://goo.gl/xyz123"
  ∧ is_valid_redirect_url (lit "https://goo.gl/xyz123") = false
  ∧ try_patterns unescape_decimal patterns entity_body = None
  ∧ findall bare_url entity_body = [lit "https://goo&#46;gl/xyz123"]
  ∧ is_valid_redirect_url (lit "https://goo&#46;gl/xyz123") = true
  ∧ _extract_redirect_from_warning_page unescape_decimal entity_body
    = Some (lit "https://goo.gl/xyz123")
  ∧ resolve_goo_gl_url unescape_decimal
      (always (Return (page (lit "This link will no longer work "
                             ++ entity_body))))
      (lit "https://goo.gl/aaaaaa")
    = (lit "https://goo.gl/xyz123", lit "resolved_from_warning").
Proof. repeat split; by vm_compute. Qed.

(** ** Resolution classifier and scan driver *)

Lemma product_elem_length (cs : str) (L : nat) (x : str) :
  x ∈ product cs L → length x = L.
Proof.
  revert x. induction L as [|L IH]; intros x; simpl.
  - by intros ->%list_elem_of_singleton.
  - intros (c & Hx & _)%list_elem_of_bind.
    apply list_elem_of_fmap in Hx as (y & -> & Hy). simpl. by rewrite (IH y).
Qed.

Lemma not_found_status_spec (status : str) :
  not_found_status status = true
  ↔ status = lit "404_error" ∨ status = lit "link_not_found".
Proof.
  unfold not_found_status. rewrite bool_decide_eq_true.
  rewrite !elem_of_cons, elem_of_nil. tauto.
Qed.

Section Driver.

Variable html_unescape : str → str.
Variable session_get : str → py_result response.
Variable strftime : nat → str.

Local Abbreviation resolve := (resolve_goo_gl_url html_unescape session_get).
Local Abbreviation save := (save_result strftime).
Local Abbreviation round := (scan_round html_unescape session_get strftime).
Local Abbreviation loop := (scan_loop html_unescape session_get strftime).
Local Abbreviation status_of := (status_of html_unescape session_get).

(** C4, as the code has it.  When the HTTP exchange ends in a transport
    failure, [resolve_goo_gl_url] returns a sentinel destination and a
    status tag, and raises nothing: [TIMEOUT] with [request_timeout]
    for a timeout, [CONNECTION_ERROR] with [connection_failed] for a
    connection failure, and [REQUEST_ERROR: ] followed by the message
    with [request_exception] for any other transport exception. *)
Theorem transport_failure_tags (short_url : str) :
  (session_get short_url = Raise Timeout →
   resolve short_url = (lit "TIMEOUT", lit "request_timeout"))
  ∧ (session_get short_url = Raise ConnectionError →
     resolve short_url = (lit "CONNECTION_ERROR", lit "connection_failed"))
  ∧ (∀ msg, session_get short_url = Raise (RequestException msg) →
     resolve short_url = (lit "REQUEST_ERROR: " ++ msg, lit "request_exception")).
Proof.
  unfold resolve_goo_gl_url. repeat split.
  - by intros ->.
  - by intros ->.
  - by intros msg ->.
Qed.

(** C10. A 200 response whose body holds [Dynamic Link Not Found], or
    holds [not found] in any letter case, is classified as
    [NOT_FOUND] with [link_not_found], whatever else the body holds:
    the warning marker and an extractable destination are not looked
    at, since the not-found test comes first in the 200 branch. *)
Theorem not_found_before_warning (short_url : str) (r : response) :
  session_get short_url = Return r →
  status_code r = 200 →
  (str_in (lit "Dynamic Link Not Found") (text r) = true
   ∨ ∃ w pre post, lower w = lit "not found" ∧ text r = pre ++ w ++ post) →
  resolve short_url = (lit "NOT_FOUND", lit "link_not_found").
Proof.
  intros Hget Hcode Hbody. unfold resolve_goo_gl_url.
  rewrite Hget, Hcode. cbn [Z.eqb Pos.eqb].
  assert (Hmark : str_in (lit "Dynamic Link Not Found") (text r)
                  || str_in (lit "not found") (lower (text r)) = true).
  { apply orb_true_iff. destruct Hbody as [H|(w & pre & post & Hw & Htext)].
    - by left.
    - right. rewrite <- Hw. apply str_in_lower, str_in_spec. by exists pre, post. }
  by rewrite Hmark.
Qed.

Lemma save_result_counters (sc : scanner) (u d status : str) :
  processed_count (save sc u d status) = processed_count sc
  ∧ found_count (save sc u d status) = found_count sc
  ∧ skip_404 (save sc u d status) = skip_404 sc.
Proof. unfold save_result. by destruct (_ && _). Qed.


Lemma scan_round_started (start_from : option str) (st : loop_state)
    (suffix : str) :
  found_start st = true →
  let short_url := lit "https://goo.gl/" ++ suffix in
  let out := resolve short_url in
  round start_from st suffix
  = {| self := count_result (save (self st) short_url out.1 out.2) out.2;
       found_start := true;
       current_index := current_index st + 1 |}.
Proof.
  intros Hfs. unfold scan_round. rewrite Hfs. cbn [negb andb].
  by destruct (resolve_goo_gl_url _ _ _).
Qed.

Lemma scan_loop_counts (start_from : option str) (combos : list str) :
  ∀ st, found_start st = true →
  processed_count (self (loop start_from st combos))
  = processed_count (self st) + Z.of_nat (length combos)
  ∧ found_count (self (loop start_from st combos))
    = found_count (self st)
      + Z.of_nat (length (filter (λ s, not_found_status (status_of s) = false)
                            combos)).
Proof.
  induction combos as [|x combos IH]; intros st Hfs.
  - simpl. lia.
  - unfold scan_loop. simpl fold_left.
    rewrite (scan_round_started start_from st x Hfs).
    match goal with |- context [fold_left _ combos ?s] => set (st1 := s) end.
    destruct (IH st1 eq_refl) as [Hp Hf]. unfold scan_loop in Hp, Hf.
    rewrite Hp, Hf. subst st1. cbn [self count_result processed_count found_count].
    destruct (save_result_counters (self st) (lit "https://goo.gl/" ++ x)
                (resolve (lit "https://goo.gl/" ++ x)).1
                (resolve (lit "https://goo.gl/" ++ x)).2)
      as (-> & -> & _).
    rewrite filter_cons. fold (status_of x).
    destruct (not_found_status (status_of x)) eqn:Hnf; cbn [negb].
    + rewrite decide_False by done. simpl length. lia.
    + rewrite decide_True by done. simpl length. lia.
Qed.


Lemma scan_loop_not_started (start_from : option str) (combos : list str) :
  ∀ st, found_start st = false →
  (∀ x, x ∈ combos → Some x ≠ start_from) →
  self (loop start_from st combos) = self st.
Proof.
  induction combos as [|x combos IH]; intros st Hfs Hne; [done|].
  unfold scan_loop. simpl fold_left.
  assert (Hround : round start_from st x
                   = {| self := self st; found_start := false;
                        current_index := current_index st + 1 |}).
  { unfold scan_round. rewrite Hfs.
    rewrite bool_decide_eq_false_2 by (apply Hne; left). done. }
  rewrite Hround. unfold scan_loop in IH. rewrite IH; [done|done|].
  intros y Hy. apply Hne. by right.
Qed.

(** C9, as the code has it.  With a resume identifier whose length is
    not the scan length, the driver raises nothing: it passes over the
    whole enumeration without finding its start, so it resolves no
    identifier, writes no ledger record, leaves both counters as they
    were, and returns as a finished scan does. *)
Theorem mismatched_resume_scans_nothing (sc : scanner) (L : nat) (s : str) :
  length s ≠ L →
  scan_url_combinations html_unescape session_get strftime sc L (Some s)
  = Return sc.
Proof.
  intros Hlen. unfold scan_url_combinations. cbn [resume_point].
  rewrite scan_loop_not_started; [done|done|].
  intros x Hx [= ->]. by apply product_elem_length in Hx.
Qed.

End Driver.

(** C4, as stated, fails: the tags for a timeout and for a connection
    failure are [request_timeout] and [connection_failed], not [timeout]
    and [connection_error]. *)
Lemma transport_failure_tags_differ :
  let u := lit "https://goo.gl/aaaaaa" in
  (resolve_goo_gl_url unescape_plain (always (Raise Timeout)) u).2
    = lit "request_timeout"
  ∧ lit "request_timeout" ≠ lit "timeout"
  ∧ (resolve_goo_gl_url unescape_plain (always (Raise ConnectionError)) u).2
    = lit "connection_failed"
  ∧ lit "connection_failed" ≠ lit "connection_error".
Proof. repeat split; by vm_compute. Qed.

(** C9, as stated, fails: a scan of length 1 asked to resume from [ab]
    returns normally, with the scanner as it was; no error is raised. *)
Lemma mismatched_resume_returns_normally :
  let sc := sample_scanner false in
  let run := scan_url_combinations unescape_plain (always (Raise Timeout))
               frozen_clock sc 1 (Some (lit "ab")) in
  run = Return sc ∧ ¬ ∃ e, run = Raise e.
Proof.
  assert (H : scan_url_combinations unescape_plain (always (Raise Timeout))
                frozen_clock (sample_scanner false) 1 (Some (lit "ab"))
              = Return (sample_scanner false)) by (by vm_compute).
  cbv zeta. rewrite H. split; [done|]. by intros [e He].
Qed.

(** ** Instances *)

Lemma find_resume_point_is_last_in_file_witness :
  (0 < 6)%nat
  ∧ output_file (sample_scanner false) = Some sample_ledger
  ∧ readable sample_ledger = true
  ∧ _find_last_processed_url (sample_scanner false) 6 = Some (lit "aaaaaa").
Proof.
  split; [lia|]. split; [reflexivity|]. split; [reflexivity|].
  rewrite (find_resume_point_is_last_in_file (sample_scanner false) header_row
             (tail sample_ledger) 6); [reflexivity|lia|reflexivity|reflexivity].
Defined.

Lemma transport_failure_tags_witness :
  always (Raise Timeout) (lit "https://goo.gl/aaaaaa") = Raise Timeout
  ∧ resolve_goo_gl_url unescape_plain (always (Raise Timeout))
      (lit "https://goo.gl/aaaaaa")
    = (lit "TIMEOUT", lit "request_timeout").
Proof.
  split; [reflexivity|].
  exact (proj1 (transport_failure_tags unescape_plain (always (Raise Timeout))
                  (lit "https://goo.gl/aaaaaa")) eq_refl).
Defined.

Lemma not_found_before_warning_witness :
  let body :=
    lit "Page Not Found. This link will no longer work https://example.org/landing" in
  _extract_redirect_from_warning_page unescape_plain body
    = Some (lit "https://example.org/landing")
  ∧ resolve_goo_gl_url unescape_plain (always (Return (page body)))
      (lit "https://goo.gl/aaaaaa")
    = (lit "NOT_FOUND", lit "link_not_found").
Proof.
  cbv zeta. split; [by vm_compute|].
  apply (not_found_before_warning unescape_plain
           (always (Return (page (lit "Page Not Found. This link will no longer work https://example.org/landing"))))
           (lit "https://goo.gl/aaaaaa")
           (page (lit "Page Not Found. This link will no longer work https://example.org/landing"))).
  - reflexivity.
  - reflexivity.
  - right. exists (lit "Not Found"), (lit "Page "),
      (lit ". This link will no longer work https://example.org/landing").
    split; reflexivity.
Defined.


Lemma mismatched_resume_scans_nothing_witness :
  length (lit "ab") ≠ 1%nat
  ∧ scan_url_combinations unescape_plain (always (Raise Timeout)) frozen_clock
      (sample_scanner false) 1 (Some (lit "ab"))
    = Return (sample_scanner false).
Proof.
  assert (H : length (lit "ab") ≠ 1%nat) by (simpl; lia).
  split; [exact H|].
  exact (mismatched_resume_scans_nothing unescape_plain
           (always (Raise Timeout)) frozen_clock (sample_scanner false) 1
           (lit "ab") H).
Defined.

(** ** The model on the worked cases of the specification *)

Example classify_redirect :
  resolve_goo_gl_url unescape_plain
    (always (Return {| status_code := 301;
                       headers := [(lit "Location", lit "https://example.com/page")];
                       text := []; url := lit "https://goo.gl/aaaaaa" |}))
    (lit "https://goo.gl/aaaaaa")
  = (lit "https://example.com/page", lit "direct_redirect").
Proof. by vm_compute. Qed.

Example classify_warning_page :
  resolve_goo_gl_url unescape_plain
    (always (Return (page (lit "This link will no longer work {"
                           ++ [dq] ++ lit "redirect_url" ++ [dq] ++ lit ":"
                           ++ [dq] ++ lit "https://example.org/x" ++ [dq]
                           ++ lit "}"))))
    (lit "https://goo.gl/aaaaaa")
  = (lit "https://example.org/x", lit "resolved_from_warning").
Proof. by vm_compute. Qed.

Example classify_own_cdn_only :
  resolve_goo_gl_url unescape_plain
    (always (Return (page (lit "This link will no longer work https://www.gstatic.com/a.png"))))
    (lit "https://goo.gl/aaaaaa")
  = (lit "WARNING_PAGE_NO_EXTRACT", lit "warning_page_parse_failed").
Proof. by vm_compute. Qed.

Example classify_other_status :
  resolve_goo_gl_url unescape_plain
    (always (Return {| status_code := 503; headers := []; text := [];
                       url := lit "https://goo.gl/aaaaaa" |}))
    (lit "https://goo.gl/aaaaaa")
  = (lit "HTTP_503", lit "http_error_503").
Proof. by vm_compute. Qed.

Example split_short_url :
  str_split (lit "/goo.gl/") (lit "https://goo.gl/aaaaab")
  = [lit "https:/"; lit "aaaaab"].
Proof. reflexivity. Qed.

Example findall_query_parameter :
  findall (query_param "url")
    (lit "x?url=https://a.example/c&redirect_url=http://b.example/ y")
  = [lit "https://a.example/c"; lit "http://b.example/"].
Proof. by vm_compute. Qed.

Example product_two_symbols :
  product (lit "ab") 2 = [lit "aa"; lit "ab"; lit "ba"; lit "bb"].
Proof. reflexivity. Qed.

Example successor_carries :
  _get_next_url_suffix (lit "a99") chars 3 = Some (lit "baa")
  ∧ _get_next_url_suffix (lit "999") chars 3 = None.
Proof. by vm_compute. Qed.

(** A scan of length 1 that resumes after the ledger's [8]: one
    identifier, [9], is left; it times out, is recorded and counts as
    found. *)
Example scan_resumes_after_ledger :
  let sc := new_scanner
              (Some [header_row;
                     [lit "https://goo.gl/8"; lit "NOT_FOUND"; lit "404_error";
                      lit "2025-08-01 12:00:00"]]) false in
  scan_url_combinations unescape_plain (always (Raise Timeout)) frozen_clock
    sc 1 None
  = Return
      {| output_file :=
           Some [header_row;
                 [lit "https://goo.gl/8"; lit "NOT_FOUND"; lit "404_error";
                  lit "2025-08-01 12:00:00"];
                 [lit "https://goo.gl/9"; lit "TIMEOUT"; lit "request_timeout";
                  lit "2025-08-01 12:00:00"]];
         skip_404 := false; processed_count := 1; found_count := 1;
         clock := 1 |}.
Proof. by vm_compute. Qed.

(** * Further properties of the code *)

(** ** The enumeration and the index function *)

Lemma product_elem_valid (cs : str) (L : nat) (x : str) :
  x ∈ product cs L → Forall (λ c, c ∈ cs) x.
Proof.
  revert x. induction L as [|L IH]; intros x; simpl.
  - intros ->%list_elem_of_singleton. constructor.
  - intros (c & Hx & Hc)%list_elem_of_bind.
    apply list_elem_of_fmap in Hx as (y & -> & Hy). constructor; auto.
Qed.

Lemma ordinal_surj (cs : str) (L : nat) (i : Z) :
  NoDup cs → 0 ≤ i < len cs ^ Z.of_nat L →
  ∃ x, Forall (λ c, c ∈ cs) x ∧ length x = L ∧ ordinal cs x = i.
Proof.
  intros Hnd. revert i. induction L as [|L IH]; intros i Hi.
  - exists []. simpl in *. repeat split; [constructor|lia].
  - rewrite Nat2Z.inj_succ, Z.pow_succ_r in Hi by lia.
    assert (Hb : 0 < len cs) by (unfold len in *; nia).
    assert (Hp : 0 < len cs ^ Z.of_nat L) by (apply Z.pow_pos_nonneg; lia).
    pose proof (Z.div_mod i (len cs ^ Z.of_nat L) ltac:(lia)) as Hdm.
    pose proof (Z.mod_pos_bound i (len cs ^ Z.of_nat L) Hp) as Hm.
    assert (Hq : 0 ≤ i `div` len cs ^ Z.of_nat L < len cs).
    { split; [apply Z.div_pos; lia|]. apply Z.div_lt_upper_bound; nia. }
    destruct (IH (i `mod` len cs ^ Z.of_nat L) Hm) as (r & Hr & Hlen & Hord).
    destruct (lookup_lt_is_Some_2 cs (Z.to_nat (i `div` len cs ^ Z.of_nat L)))
      as [c Hc]; [unfold len in Hq |- *; lia|].
    exists (c :: r). split; [|split].
    + constructor; [by eapply list_elem_of_lookup_2|done].
    + simpl. by rewrite Hlen.
    + simpl. rewrite (pos_of_lookup cs _ c Hnd Hc), Hlen, Hord. lia.
Qed.

Lemma product_lookup_inv (L i : nat) (x : str) :
  product chars L !! i = Some x →
  identifier L x ∧ ordinal chars x = Z.of_nat i.
Proof.
  intros Hlk.
  assert (Hx : identifier L x).
  { apply list_elem_of_lookup_2 in Hlk. split.
    - by apply product_elem_length in Hlk.
    - by apply product_elem_valid in Hlk. }
  split; [done|].
  pose proof (lookup_lt_Some _ _ _ Hlk) as Hlt.
  rewrite product_length in Hlt.
  assert (Hrange : 0 ≤ Z.of_nat i < len chars ^ Z.of_nat L).
  { unfold len. rewrite <- Nat2Z.inj_pow. lia. }
  destruct (ordinal_surj chars L (Z.of_nat i) chars_nodup Hrange)
    as (y & Hy & Hlen & Hord).
  pose proof (product_lookup chars y Hy) as Hlky.
  rewrite Hlen, Hord, Nat2Z.id, Hlk in Hlky. by injection Hlky as ->.
Qed.

(** X1. The enumeration and the index function are inverse to one
    another: the entry at position [i] of
    [itertools.product(chars, repeat=L)] is [x] exactly when [x] is an
    identifier of length [L] whose index is [i]. *)
Theorem enumeration_position_is_index (L i : nat) (x : str) :
  product chars L !! i = Some x
  ↔ identifier L x ∧ _url_suffix_to_index x chars L = Z.of_nat i.
Proof.
  split.
  - intros [Hx Hord]%product_lookup_inv. split; [done|].
    by rewrite (encode_ordinal L x Hx).
  - intros [Hx Hidx]. rewrite (encode_ordinal L x Hx) in Hidx.
    destruct Hx as [<- Hv].
    pose proof (product_lookup chars x Hv) as Hlk.
    by rewrite Hidx, Nat2Z.id in Hlk.
Qed.

(** X2. Whatever the input, the index lies between 0 and [62^L - 1]. *)
Theorem index_in_range (L : nat) (x : str) :
  0 ≤ _url_suffix_to_index x chars L < 62 ^ Z.of_nat L.
Proof.
  assert (Hp : 0 < 62 ^ Z.of_nat L) by (apply Z.pow_pos_nonneg; lia).
  destruct (decide (identifier L x)) as [Hx|Hx].
  - rewrite (encode_ordinal L x Hx).
    pose proof (ordinal_bounds chars x (proj2 Hx)) as Hb.
    by rewrite (proj1 Hx), len_chars in Hb.
  - unfold _url_suffix_to_index.
    destruct (Nat.eqb_spec (length x) L) as [Hlen|Hlen]; simpl; [|lia].
    rewrite index_loop_foreign; [lia|]. intros Hv. by apply Hx.
Qed.

(** X3. Two identifiers of one length with the same index are equal. *)
Theorem index_injective (L : nat) (x y : str) :
  identifier L x → identifier L y →
  _url_suffix_to_index x chars L = _url_suffix_to_index y chars L →
  x = y.
Proof.
  intros Hx Hy. rewrite (encode_ordinal L x Hx), (encode_ordinal L y Hy).
  by apply (ordinal_inj L).
Qed.

(** X4. The successor of an identifier, when there is one, is again an
    identifier of the same length, and its index is one more. *)
Theorem successor_is_identifier (L : nat) (x y : str) :
  identifier L x →
  _get_next_url_suffix x chars L = Some y →
  identifier L y
  ∧ _url_suffix_to_index y chars L = _url_suffix_to_index x chars L + 1.
Proof.
  intros Hx Hsucc.
  destruct (successor_cases L x Hx) as [[Hnone _] | (z & Hsome & Hz & Hval)].
  - congruence.
  - rewrite Hsome in Hsucc. injection Hsucc as <-. split; [done|].
    by rewrite (encode_ordinal L z Hz), (encode_ordinal L x Hx).
Qed.

Lemma first_symbol_lookup : chars !! 0%nat = Some first_symbol.
Proof. reflexivity. Qed.

Lemma next_loop_carry (cs : str) (i : nat) (l : str) :
  next_loop cs (S i) l 1
  = match l !! i with
    | None => None
    | Some c =>
        match str_index c cs with
        | Raise _ => None
        | Return current_index =>
            if Z.of_nat current_index + 1 <? len cs then
              match cs !! Z.to_nat (Z.of_nat current_index + 1) with
              | Some d => next_loop cs i (<[i := d]> l) 0
              | None => None
              end
            else
              match cs !! 0%nat with
              | Some d => next_loop cs i (<[i := d]> l) 1
              | None => None
              end
        end
    end.
Proof. reflexivity. Qed.

(** The loop on a text that ends in a run of the last symbol: the run
    wraps to the first symbol, the character before it is replaced by
    its follower, and nothing to the left of it is read. *)
Lemma next_loop_trailing_run (p post : str) (c c' : ascii) (k : nat) :
  c ∈ chars → chars !! S (pos chars c) = Some c' →
  next_loop chars (length p + 1 + k)
    (p ++ c :: replicate k last_symbol ++ post) 1
  = Some (p ++ c' :: replicate k first_symbol ++ post, 0).
Proof.
  intros Hc Hnext. revert post. induction k as [|k IH]; intros post.
  - rewrite Nat.add_0_r, Nat.add_1_r. simpl replicate. simpl app.
    rewrite next_loop_carry.
    rewrite (list_lookup_middle p post c (length p) eq_refl).
    rewrite (str_index_pos chars c Hc).
    pose proof (lookup_lt_Some _ _ _ Hnext) as Hlt.
    destruct (Z.ltb_spec (Z.of_nat (pos chars c) + 1) (len chars)) as [_|Hge];
      [|unfold len in Hge; lia].
    replace (Z.to_nat (Z.of_nat (pos chars c) + 1)) with (S (pos chars c))
      by lia.
    rewrite Hnext, next_loop_done.
    rewrite insert_app_r_alt by lia. by rewrite Nat.sub_diag.
  - replace (length p + 1 + S k)%nat with (S (length p + 1 + k)) by lia.
    rewrite !replicate_S_end, <- !app_assoc. simpl app.
    assert (Hlen : length (p ++ c :: replicate k last_symbol)
                   = (length p + 1 + k)%nat).
    { rewrite length_app. simpl. rewrite length_replicate. lia. }
    assert (Hsplit : ∀ d, p ++ c :: replicate k last_symbol ++ d :: post
                          = (p ++ c :: replicate k last_symbol) ++ d :: post).
    { intros d. by rewrite <- app_assoc. }
    rewrite next_loop_carry, (Hsplit last_symbol).
    rewrite (list_lookup_middle _ post last_symbol _ (eq_sym Hlen)).
    rewrite (str_index_pos chars last_symbol last_symbol_in), pos_last_symbol.
    change (Z.of_nat 61 + 1 <? len chars) with false. cbv iota.
    rewrite first_symbol_lookup.
    rewrite insert_app_r_alt by lia. rewrite Hlen, Nat.sub_diag.
    simpl insert. rewrite <- app_assoc. simpl app.
    apply (IH (first_symbol :: post)).
Qed.

(** X5. [_get_next_url_suffix] reads its input from the right and stops
    at the first character that is not the last symbol: that character
    is replaced by its follower in the alphabet, the run of last symbols
    after it wraps to the first symbol, and the text before it is kept
    as it is, whatever it holds. *)
Theorem successor_rewrites_trailing_run (p : str) (c c' : ascii) (k : nat) :
  c ∈ chars → chars !! S (pos chars c) = Some c' →
  _get_next_url_suffix (p ++ c :: replicate k last_symbol) chars
    (length p + 1 + k)
  = Some (p ++ c' :: replicate k first_symbol).
Proof.
  intros Hc Hnext. unfold _get_next_url_suffix.
  assert (Hlen : length (p ++ c :: replicate k last_symbol)
                 = (length p + 1 + k)%nat).
  { rewrite length_app. simpl. rewrite length_replicate. lia. }
  rewrite Hlen, Nat.eqb_refl. simpl negb. cbv iota.
  pose proof (next_loop_trailing_run p [] c c' k Hc Hnext) as Hrun.
  rewrite !app_nil_r in Hrun. by rewrite Hrun.
Qed.

Lemma successor_rewrites_trailing_run_witness :
  _get_next_url_suffix (lit "!-a99") chars 5 = Some (lit "!-baa").
Proof.
  apply (successor_rewrites_trailing_run (lit "!-") "a"%char "b"%char 2).
  - apply (bool_decide_unpack _). by vm_compute.
  - reflexivity.
Defined.

Lemma next_loop_foreign (p post : str) (c : ascii) (k : nat) :
  c ∉ chars →
  next_loop chars (length p + 1 + k)
    (p ++ c :: replicate k last_symbol ++ post) 1 = None.
Proof.
  intros Hc. revert post. induction k as [|k IH]; intros post.
  - rewrite Nat.add_0_r, Nat.add_1_r. simpl replicate. simpl app.
    rewrite next_loop_carry.
    rewrite (list_lookup_middle p post c (length p) eq_refl).
    by destruct (str_index_not_elem c chars Hc) as [e ->].
  - replace (length p + 1 + S k)%nat with (S (length p + 1 + k)) by lia.
    rewrite !replicate_S_end, <- !app_assoc. simpl app.
    assert (Hlen : length (p ++ c :: replicate k last_symbol)
                   = (length p + 1 + k)%nat).
    { rewrite length_app. simpl. rewrite length_replicate. lia. }
    assert (Hsplit : ∀ d, p ++ c :: replicate k last_symbol ++ d :: post
                          = (p ++ c :: replicate k last_symbol) ++ d :: post).
    { intros d. by rewrite <- app_assoc. }
    rewrite next_loop_carry, (Hsplit last_symbol).
    rewrite (list_lookup_middle _ post last_symbol _ (eq_sym Hlen)).
    rewrite (str_index_pos chars last_symbol last_symbol_in), pos_last_symbol.
    change (Z.of_nat 61 + 1 <? len chars) with false. cbv iota.
    rewrite first_symbol_lookup.
    rewrite insert_app_r_alt by lia. rewrite Hlen, Nat.sub_diag.
    simpl insert. rewrite <- app_assoc. simpl app.
    apply (IH (first_symbol :: post)).
Qed.

(** X6. When the first character from the right that is not the last
    symbol lies outside the alphabet, [_get_next_url_suffix] returns
    nothing. *)
Theorem successor_stops_at_foreign_symbol (p : str) (c : ascii) (k : nat) :
  c ∉ chars →
  _get_next_url_suffix (p ++ c :: replicate k last_symbol) chars
    (length p + 1 + k)
  = None.
Proof.
  intros Hc. unfold _get_next_url_suffix.
  assert (Hlen : length (p ++ c :: replicate k last_symbol)
                 = (length p + 1 + k)%nat).
  { rewrite length_app. simpl. rewrite length_replicate. lia. }
  rewrite Hlen, Nat.eqb_refl. simpl negb. cbv iota.
  pose proof (next_loop_foreign p [] c k Hc) as Hrun.
  rewrite !app_nil_r in Hrun. by rewrite Hrun.
Qed.

Lemma successor_stops_at_foreign_symbol_witness :
  _get_next_url_suffix (lit "ab-99") chars 5 = None.
Proof.
  apply (successor_stops_at_foreign_symbol (lit "ab") "-"%char 2).
  apply (bool_decide_unpack _). by vm_compute.
Defined.

(** ** The ledger *)

(** X7. A resume point read from the ledger has the requested length,
    is not empty, and is the text after the last [/goo.gl/] of the first
    field of a record below the header. *)
Theorem resume_point_comes_from_a_record (sc : scanner) (L : nat) (s : str) :
  _find_last_processed_url sc L = Some s →
  length s = L ∧ s ≠ []
  ∧ ∃ header records pre rest,
      output_file sc = Some (header :: records)
      ∧ ((pre ++ lit "/goo.gl/" ++ s) :: rest) ∈ records
      ∧ str_in (lit "/goo.gl/") s = false.
Proof.
  unfold _find_last_processed_url.
  destruct (output_file sc) as [[|header records]|]; [done| |done].
  destruct (row_readable header); [|done].
  rewrite read_records_fold.
  destruct (forallb row_readable records); [|done].
  rewrite fold_last_url_step.
  destruct (last _) as [t|] eqn:Hlast; [|done].
  destruct (truthy t) eqn:Htr; [|done]. intros [= ->].
  apply last_Some_elem_of, list_elem_of_filter in Hlast as [Hlen Hin].
  apply list_elem_of_omap in Hin as (r & Hr & Hid).
  apply record_identifier_spec in Hid as (short_url & rest & pre & -> & -> & Hno).
  split; [done|]. split; [by destruct s|].
  by exists header, records, pre, rest.
Qed.

Lemma str_in_head_elem (c : ascii) (w s : str) :
  str_in (c :: w) s = true → c ∈ s.
Proof.
  intros (pre & post & ->)%str_in_spec.
  apply elem_of_app. right. left.
Qed.

Lemma split_no_separator (sep s : str) :
  sep ≠ [] → str_in sep s = false → last_piece (str_split sep s) = s.
Proof.
  intros Hsep Hno.
  destruct (split_last_piece sep (length s) s [] Hsep ltac:(lia)) as [H _].
  by apply H.
Qed.

(** The identifier of the record [save_result] writes for an identifier
    of the alphabet is that identifier. *)
Lemma record_identifier_short_url (x : str) (rest : row) :
  Forall (λ c, c ∈ chars) x →
  record_identifier ((lit "https://goo.gl/" ++ x) :: rest) = Some x.
Proof.
  intros Hv.
  assert (Hno : str_in (lit "/goo.gl/") x = false).
  { apply not_true_iff_false. intros Hin%str_in_head_elem.
    rewrite Forall_forall in Hv. specialize (Hv _ Hin).
    revert Hv. apply (bool_decide_unpack _). by vm_compute. }
  unfold record_identifier.
  assert (Hin : str_in (lit "/goo.gl/") (lit "https://goo.gl/" ++ x) = true).
  { apply str_in_spec. by exists (lit "https:/"), x. }
  rewrite Hin. f_equal.
  change (str_split (lit "/goo.gl/") (lit "https://goo.gl/" ++ x))
    with (lit "https:/" :: split_go (lit "/goo.gl/") 0 [] x).
  rewrite last_piece_cons by apply split_go_nonempty.
  by apply split_no_separator.
Qed.

Lemma omap_singleton {A B} (f : A → option B) (a : A) (y : B) :
  f a = Some y → omap f [a] = [y].
Proof. intros H. simpl. by rewrite H. Qed.

(** X8. What [save_result] writes, [_find_last_processed_url] reads
    back: after a result for the identifier [x] of length [L] has been
    saved to a ledger that has its header row, the resume point for
    length [L] is [x], provided no field of the ledger or of the new
    record is over the field size limit of [csv]. *)
Theorem saved_identifier_is_resume_point (strftime : nat → str) (sc : scanner)
    (L : nat) (x destination_url status : str) (header : row)
    (records : list row) :
  (0 < L)%nat → identifier L x →
  output_file sc = Some (header :: records) →
  readable (header :: records) = true →
  row_readable [lit "https://goo.gl/" ++ x; destination_url; status;
                strftime (clock sc)] = true →
  skip_404 sc && not_found_status status = false →
  _find_last_processed_url
    (save_result strftime sc (lit "https://goo.gl/" ++ x) destination_url status)
    L
  = Some x.
Proof.
  intros HL [Hlen Hv] Hfile Hread Hrow Hskip.
  unfold save_result. rewrite Hskip.
  unfold _find_last_processed_url, append_row. cbn [output_file].
  rewrite Hfile. cbn [default from_option id app].
  unfold readable in Hread. cbn [forallb] in Hread.
  apply andb_true_iff in Hread as [Hhead Hrest].
  rewrite Hhead, read_records_fold, forallb_app, Hrest.
  cbn [forallb]. rewrite Hrow. cbn [andb].
  rewrite fold_last_url_step, omap_app, filter_app, last_app.
  rewrite (omap_singleton _ _ x (record_identifier_short_url x _ Hv)).
  rewrite filter_cons, decide_True by done. rewrite filter_nil. cbn [last].
  destruct x; [simpl in Hlen; lia|done].
Qed.

(** ** The scan driver and the ledger *)

Lemma product_elem_identifier (L : nat) (x : str) :
  x ∈ product chars L → identifier L x.
Proof.
  intros Hx. split.
  - by apply product_elem_length in Hx.
  - by apply product_elem_valid in Hx.
Qed.

Lemma find_last_truthy (sc : scanner) (L : nat) (s : str) :
  _find_last_processed_url sc L = Some s → truthy s = true.
Proof.
  unfold _find_last_processed_url.
  destruct (output_file sc) as [[|header records]|]; [done| |done].
  destruct (row_readable header); [|done].
  destruct (read_records _ _ _) as [[t|]|]; [|done|done].
  destruct (truthy t) eqn:Htr; [|done]. by intros [= <-].
Qed.

Section Ledger.

Variable html_unescape : str → str.
Variable session_get : str → py_result response.
Variable strftime : nat → str.

Local Abbreviation resolve := (resolve_goo_gl_url html_unescape session_get).
Local Abbreviation save := (save_result strftime).
Local Abbreviation round := (scan_round html_unescape session_get strftime).
Local Abbreviation loop := (scan_loop html_unescape session_get strftime).
Local Abbreviation scan :=
(scan_url_combinations html_unescape session_get strftime).
Local Abbreviation status_of := (status_of html_unescape session_get).

(** What one round adds to the ledger and to the counters. *)
Lemma scan_round_appends (start_from : option str) (st : loop_state)
  (suffix : str) :
∃ new,
  ledger_rows (self (round start_from st suffix))
  = ledger_rows (self st) ++ new
  ∧ Forall (λ r, length r = 4%nat) new
  ∧ skip_404 (self (round start_from st suffix)) = skip_404 (self st)
  ∧ Z.of_nat (length new)
    = (if skip_404 (self st)
       then found_count (self (round start_from st suffix))
            - found_count (self st)
       else processed_count (self (round start_from st suffix))
            - processed_count (self st)).
Proof.
unfold scan_round.
destruct (negb (found_start st) && _).
- exists []. cbn [self]. rewrite app_nil_r.
  split; [done|]. split; [constructor|]. split; [done|].
  destruct (skip_404 (self st)); simpl; lia.
- destruct (resolve _) as [destination_url status].
  cbn [self]. unfold count_result, save_result, ledger_rows, append_row.
  destruct (skip_404 (self st)) eqn:Hskip;
    destruct (not_found_status status) eqn:Hnf;
    cbn [andb negb output_file skip_404 processed_count found_count default
           from_option id].
  + exists []. rewrite app_nil_r.
    split; [done|]. split; [constructor|]. split; [done|]. simpl. lia.
  + eexists [_].
    split; [done|]. split; [by repeat constructor|]. split; [done|].
    simpl. lia.
  + eexists [_].
    split; [done|]. split; [by repeat constructor|]. split; [done|].
    simpl. lia.
  + eexists [_].
    split; [done|]. split; [by repeat constructor|]. split; [done|].
    simpl. lia.
Qed.

Lemma scan_loop_appends (start_from : option str) (combos : list str) :
∀ st, ∃ new,
  ledger_rows (self (loop start_from st combos))
  = ledger_rows (self st) ++ new
  ∧ Forall (λ r, length r = 4%nat) new
  ∧ skip_404 (self (loop start_from st combos)) = skip_404 (self st)
  ∧ Z.of_nat (length new)
    = (if skip_404 (self st)
       then found_count (self (loop start_from st combos))
            - found_count (self st)
       else processed_count (self (loop start_from st combos))
            - processed_count (self st)).
Proof.
induction combos as [|x combos IH]; intros st.
- exists []. simpl. rewrite app_nil_r.
  split; [done|]. split; [constructor|]. split; [done|].
  destruct (skip_404 (self st)); simpl; lia.
- unfold scan_loop. simpl fold_left.
  destruct (scan_round_appends start_from st x)
    as (new1 & Hrows1 & Hall1 & Hskip1 & Hlen1).
  destruct (IH (round start_from st x))
    as (new2 & Hrows2 & Hall2 & Hskip2 & Hlen2).
  unfold scan_loop in *.
  exists (new1 ++ new2). split; [|split; [|split]].
  + by rewrite Hrows2, Hrows1, app_assoc.
  + by apply Forall_app.
  + by rewrite Hskip2.
  + rewrite length_app, Nat2Z.inj_add, Hlen1, Hlen2, Hskip1.
    destruct (skip_404 (self st)); lia.
Qed.

(** X9. A scan only appends to the ledger: the rows it finds there stay
  in place, each row it adds has four fields, the skip flag is kept,
  and the number of rows added is the number of identifiers processed,
  or, with the skip flag set, the number counted as found. *)
Theorem scan_only_appends (sc : scanner) (L : nat) (start_from : option str) :
∃ sc' new,
  scan sc L start_from = Return sc'
  ∧ ledger_rows sc' = ledger_rows sc ++ new
  ∧ Forall (λ r, length r = 4%nat) new
  ∧ skip_404 sc' = skip_404 sc
  ∧ Z.of_nat (length new)
    = (if skip_404 sc then found_count sc' - found_count sc
       else processed_count sc' - processed_count sc).
Proof.
unfold scan_url_combinations.
set (start := resume_point sc L start_from).
set (st := {| self := sc;
              found_start := match start with None => true | Some _ => false end;
              current_index := 0 |}).
destruct (scan_loop_appends start (product chars L) st) as (new & Hnew).
exists (self (loop start st (product chars L))), new. split; [done|].
exact Hnew.
Qed.

(** The rounds before the start position change nothing but the
  index; the round at the start position runs as a started one. *)
Lemma scan_loop_skips (s : str) (pre rest : list str) :
∀ st, found_start st = false → (∀ x, x ∈ pre → x ≠ s) →
loop (Some s) st (pre ++ s :: rest)
= loop (Some s)
    {| self := self st; found_start := true;
       current_index := current_index st + Z.of_nat (length pre) |}
    (s :: rest).
Proof.
induction pre as [|x pre IH]; intros st Hfs Hne.
- unfold scan_loop. simpl. f_equal. unfold scan_round. rewrite Hfs.
  cbn [found_start self current_index negb andb].
  rewrite bool_decide_eq_true_2 by done. cbn [negb andb].
  destruct (resolve _). f_equal. lia.
- unfold scan_loop. simpl fold_left.
  assert (Hround : round (Some s) st x
                   = {| self := self st; found_start := false;
                        current_index := current_index st + 1 |}).
  { unfold scan_round. rewrite Hfs.
    rewrite bool_decide_eq_false_2; [done|].
    intros [= ->]. apply (Hne s); [left|done]. }
  rewrite Hround. unfold scan_loop in IH. rewrite IH; cbn [self current_index].
  + replace (current_index st + 1 + Z.of_nat (length pre))
      with (current_index st + Z.of_nat (length (x :: pre)))
      by (simpl length; lia).
    done.
  + done.
  + intros y Hy. apply Hne. by right.
Qed.

Lemma product_split_at (L : nat) (s : str) :
identifier L s →
product chars L
= take (Z.to_nat (ordinal chars s)) (product chars L)
  ++ s :: drop (S (Z.to_nat (ordinal chars s))) (product chars L)
∧ ∀ x, x ∈ take (Z.to_nat (ordinal chars s)) (product chars L) → x ≠ s.
Proof.
intros Hs.
assert (Hlk : product chars L !! Z.to_nat (ordinal chars s) = Some s).
{ destruct Hs as [<- Hv]. by apply product_lookup. }
split.
- by rewrite (take_drop_middle _ _ _ Hlk).
- intros x Hx ->.
  apply list_elem_of_lookup in Hx as [j Hj].
  pose proof (lookup_lt_Some _ _ _ Hj) as Hlt. rewrite length_take in Hlt.
  rewrite lookup_take_lt in Hj by lia.
  apply product_lookup_inv in Hj as [_ Hord]. lia.
Qed.

(** The scan from a start position that is an identifier. *)
Lemma scan_from_identifier (sc : scanner) (L : nat) (start_from : option str)
  (s : str) :
resume_point sc L start_from = Some s → identifier L s →
scan sc L start_from
= Return
    (self (loop (Some s)
             {| self := sc; found_start := true;
                current_index := ordinal chars s |}
             (drop (Z.to_nat (ordinal chars s)) (product chars L)))).
Proof.
intros Hres Hs. unfold scan_url_combinations. rewrite Hres. f_equal.
destruct (product_split_at L s Hs) as [Hsplit Hne].
pose proof (ordinal_bounds chars s (proj2 Hs)) as Hb.
assert (Hlk : product chars L !! Z.to_nat (ordinal chars s) = Some s).
{ destruct Hs as [<- Hv]. by apply product_lookup. }
rewrite Hsplit at 1.
rewrite scan_loop_skips; [|done|done]. cbn [self current_index].
rewrite (drop_S _ _ _ Hlk).
do 2 f_equal. f_equal.
pose proof (lookup_lt_Some _ _ _ Hlk) as Hlt.
rewrite length_take. lia.
Qed.

(** The scan without a start position. *)
Lemma scan_without_resume_point (sc : scanner) (L : nat)
  (start_from : option str) :
resume_point sc L start_from = None →
scan sc L start_from
= Return
    (self (loop None
             {| self := sc; found_start := true; current_index := 0 |}
             (product chars L))).
Proof. intros Hres. unfold scan_url_combinations. by rewrite Hres. Qed.

(** X10. A scan that has no resume point, neither from the caller nor
  from the ledger, processes every identifier of the length: the
  processed counter grows by [62^L]. *)
Theorem scan_from_scratch_processes_all (sc : scanner) (L : nat)
  (start_from : option str) :
resume_point sc L start_from = None →
∃ sc', scan sc L start_from = Return sc'
       ∧ processed_count sc' = processed_count sc + 62 ^ Z.of_nat L.
Proof.
intros Hres. unfold scan_url_combinations. rewrite Hres.
eexists. split; [reflexivity|].
destruct (scan_loop_counts html_unescape session_get strftime None
            (product chars L)
            {| self := sc; found_start := true; current_index := 0 |}
            eq_refl) as [Hp _].
rewrite Hp, product_length. cbn [self].
by rewrite Nat2Z.inj_pow.
Qed.

(** X11. A scan that resumes at an identifier [s] processes [s] and
  every identifier after it, and none before it: the processed counter
  grows by [62^L] less the index of [s], and the found counter by the
  number of those identifiers whose status is not a not-found one. *)
Theorem scan_resumes_at_identifier (sc : scanner) (L : nat)
  (start_from : option str) (s : str) :
resume_point sc L start_from = Some s → identifier L s →
∃ sc', scan sc L start_from = Return sc'
       ∧ processed_count sc'
         = processed_count sc
           + (62 ^ Z.of_nat L - _url_suffix_to_index s chars L)
       ∧ found_count sc'
         = found_count sc
           + Z.of_nat
               (length
                  (filter (λ x, not_found_status (status_of x) = false)
                     (drop (Z.to_nat (_url_suffix_to_index s chars L))
                        (product chars L)))).
Proof.
intros Hres Hs. rewrite (scan_from_identifier sc L start_from s Hres Hs).
rewrite (encode_ordinal L s Hs).
eexists. split; [reflexivity|].
pose proof (ordinal_bounds chars s (proj2 Hs)) as Hb.
rewrite (proj1 Hs), len_chars in Hb.
destruct (scan_loop_counts html_unescape session_get strftime (Some s)
            (drop (Z.to_nat (ordinal chars s)) (product chars L))
            {| self := sc; found_start := true;
               current_index := ordinal chars s |} eq_refl) as [Hp Hf].
rewrite Hp, Hf. cbn [self]. split; [|done].
rewrite length_drop, product_length.
assert (Z.of_nat (length chars ^ L) = 62 ^ Z.of_nat L)
  by (by rewrite Nat2Z.inj_pow).
lia.
Qed.

(** X12. A scan whose resume point is not an identifier of the scan
  length, because its length differs or because it holds a character
  outside the alphabet, never finds its start: it resolves nothing and
  returns the scanner as it was.  This is so for a start position
  given by the caller and for one derived from the ledger. *)
Theorem scan_with_foreign_start_does_nothing (sc : scanner) (L : nat)
  (start_from : option str) (s : str) :
resume_point sc L start_from = Some s → ¬ identifier L s →
scan sc L start_from = Return sc.
Proof.
intros Hres Hs. unfold scan_url_combinations. rewrite Hres.
rewrite scan_loop_not_started; [done|done|].
intros x Hx [= ->]. by apply Hs, product_elem_identifier.
Qed.

(** X13. Auto-resume: with no start position from the caller and a
  ledger whose last identifier of length [L] is the identifier [x],
  the scan goes on after [x], processing the [62^L - 1 - index x]
  identifiers that follow; when [x] is the last identifier, it starts
  again from the first one and processes all [62^L]. *)
Theorem auto_resume_continues_after_last_record (sc : scanner) (L : nat)
  (x : str) :
_find_last_processed_url sc L = Some x → identifier L x →
∃ sc', scan sc L None = Return sc'
       ∧ processed_count sc'
         = processed_count sc
           + (if decide (x = replicate L last_symbol) then 62 ^ Z.of_nat L
              else 62 ^ Z.of_nat L - 1 - _url_suffix_to_index x chars L).
Proof.
intros Hfind Hx.
pose proof (find_last_truthy sc L x Hfind) as Htr.
rewrite (encode_ordinal L x Hx).
destruct (successor_cases L x Hx) as [[Hnone Hmax] | (y & Hsome & Hy & Hval)].
- assert (Hres : resume_point sc L None = None).
  { unfold resume_point. by rewrite Hfind, Htr, Hnone. }
  assert (Hlast : x = replicate L last_symbol).
  { apply (ordinal_inj L); [done|apply replicate_last_identifier|].
    rewrite ordinal_replicate_last. lia. }
  rewrite decide_True by done.
  unfold scan_url_combinations. rewrite Hres.
  eexists. split; [reflexivity|].
  destruct (scan_loop_counts html_unescape session_get strftime None
              (product chars L)
              {| self := sc; found_start := true; current_index := 0 |}
              eq_refl) as [Hp _].
  rewrite Hp, product_length. cbn [self]. by rewrite Nat2Z.inj_pow.
- assert (Hytr : truthy y = true).
  { destruct Hx as [Hlx _], Hy as [Hly _]. destruct x; [done|].
    destruct y; [simpl in *; lia|done]. }
  assert (Hres : resume_point sc L None = Some y).
  { unfold resume_point. by rewrite Hfind, Htr, Hsome, Hytr. }
  assert (Hnot : x ≠ replicate L last_symbol).
  { intros ->. rewrite ordinal_replicate_last in Hval.
    pose proof (ordinal_bounds chars y (proj2 Hy)) as Hby.
    rewrite (proj1 Hy), len_chars in Hby. lia. }
  rewrite decide_False by done.
  rewrite (scan_from_identifier sc L None y Hres Hy).
  eexists. split; [reflexivity|].
  pose proof (ordinal_bounds chars y (proj2 Hy)) as Hby.
  rewrite (proj1 Hy), len_chars in Hby.
  destruct (scan_loop_counts html_unescape session_get strftime (Some y)
              (drop (Z.to_nat (ordinal chars y)) (product chars L))
              {| self := sc; found_start := true;
                 current_index := ordinal chars y |} eq_refl) as [Hp _].
  rewrite Hp. cbn [self]. rewrite length_drop, product_length.
  assert (Z.of_nat (length chars ^ L) = 62 ^ Z.of_nat L)
    by (by rewrite Nat2Z.inj_pow).
  lia.
Qed.

End Ledger.

(** ** The classifier and the extractor *)

Lemma http_error_not_not_found (code : Z) :
  not_found_status (lit "http_error_" ++ str_of_int code) = false.
Proof.
  unfold not_found_status. apply bool_decide_eq_false.
  rewrite !elem_of_cons, elem_of_nil. by intros [H|[H|[]]].
Qed.

Lemma http_error_not_resolved (code : Z) :
  lit "http_error_" ++ str_of_int code ≠ lit "resolved_from_warning".
Proof. done. Qed.

Lemma replace_go_absent (old new s : str) :
  str_in old s = false → replace_go old new 0 s = s.
Proof.
  induction s as [|c s IH]; [done|]. simpl.
  destruct (startswith old (c :: s)); [done|]. simpl.
  intros Hno. by rewrite IH.
Qed.

Section Classifier.

Variable html_unescape : str → str.
Variable session_get : str → py_result response.

Local Abbreviation resolve := (resolve_goo_gl_url html_unescape session_get).
Local Abbreviation extract :=
(_extract_redirect_from_warning_page html_unescape).
Local Abbreviation valid := (λ u, is_valid_redirect_url u = true).

(** The not-found test of the 200 branch. *)
Local Abbreviation not_found_page := (λ body,
str_in (lit "Dynamic Link Not Found") body
|| str_in (lit "not found") (lower body)).

(** The warning test of the 200 branch. *)
Local Abbreviation warning_page := (λ body,
str_in (lit "This link will no longer work") body
|| str_in (lit "goo.gl links will no longer function") body).

(** X14. The status of a resolution is one of the two not-found tags,
  so that the outcome is not counted as found and is dropped under the
  skip flag, exactly when the exchange gave a response with status
  404, or with status 200 and a not-found marker in the body.  A
  transport failure, a redirect, any other status code and any other
  200 page count as found. *)
Theorem not_found_exactly_404_or_marker (short_url : str) :
not_found_status (resolve short_url).2 = true
↔ ∃ r, session_get short_url = Return r
       ∧ (status_code r = 404
          ∨ (status_code r = 200 ∧ not_found_page (text r) = true)).
Proof.
unfold resolve_goo_gl_url.
destruct (session_get short_url) as [r|e] eqn:Hget.
- destruct (Z.eqb_spec (status_code r) 200) as [H200|H200].
  + destruct (not_found_page (text r)) eqn:Hnf.
    * split; [intros _|done]. exists r. split; [done|]. by right.
    * assert (Hno : ¬ ∃ r0, Return r = Return r0
                     ∧ (status_code r0 = 404
                        ∨ status_code r0 = 200
                          ∧ not_found_page (text r0) = true)).
      { intros (r0 & [= <-] & [H|[_ H]]); [lia|congruence]. }
      destruct (warning_page (text r)).
      -- destruct (extract (text r)) as [u|]; [destruct (truthy u)|];
           (split; [done|by intros ?]).
      -- split; [done|by intros ?].
  + destruct (bool_decide _) eqn:H3xx.
    * apply bool_decide_eq_true in H3xx.
      assert (Hno : ¬ ∃ r0, Return r = Return r0
                       ∧ (status_code r0 = 404
                          ∨ status_code r0 = 200
                            ∧ not_found_page (text r0) = true)).
      { intros (r0 & [= <-] & [H|[H _]]); [|done].
        rewrite H in H3xx. revert H3xx.
        rewrite !elem_of_cons, elem_of_nil. lia. }
      destruct (truthy _); (split; [done|by intros ?]).
    * destruct (Z.eqb_spec (status_code r) 404) as [H404|H404].
      -- split; [intros _|done]. exists r. split; [done|]. by left.
      -- cbn [snd]. rewrite http_error_not_not_found.
         split; [done|]. intros (r0 & [= <-] & [H|[H _]]); done.
- assert (Hno : ¬ ∃ r0, Raise e = Return r0
                   ∧ (status_code r0 = 404
                      ∨ status_code r0 = 200
                        ∧ not_found_page (text r0) = true)).
  { by intros (r0 & [=] & _). }
  destruct e; (split; [done|by intros ?]).
Qed.

(** X15. The status [resolved_from_warning] is only given to what the
  extractor returned for a 200 page that has a warning marker and no
  not-found marker; the destination is then the extracted URL and is
  not empty. *)
Theorem resolved_from_warning_is_extracted (short_url : str) :
(resolve short_url).2 = lit "resolved_from_warning" →
∃ r, session_get short_url = Return r
     ∧ status_code r = 200
     ∧ not_found_page (text r) = false
     ∧ warning_page (text r) = true
     ∧ extract (text r) = Some (resolve short_url).1
     ∧ (resolve short_url).1 ≠ [].
Proof.
unfold resolve_goo_gl_url.
destruct (session_get short_url) as [r|e] eqn:Hget.
- destruct (Z.eqb_spec (status_code r) 200) as [H200|H200].
  + destruct (not_found_page (text r)) eqn:Hnf; [done|].
    destruct (warning_page (text r)) eqn:Hw; [|done].
    destruct (extract (text r)) as [u|] eqn:Hex; [|done].
    destruct (truthy u) eqn:Htr; [|done].
    intros _. exists r. cbn [fst]. repeat split; try done.
    by destruct u.
  + destruct (bool_decide _); [by destruct (truthy _)|].
    destruct (Z.eqb_spec (status_code r) 404); [done|].
    cbn [snd]. intros H. by apply http_error_not_resolved in H.
- by destruct e.
Qed.

(** X16. Whatever the extractor returns comes from the page and has
  passed the validity check: it is either the cleaned form of a match
  of one of the strategy patterns, valid as returned, or the
  unescaped form of a bare token that was valid as found. *)
Theorem extracted_url_is_a_valid_candidate (html_content u : str) :
extract html_content = Some u →
(is_valid_redirect_url u = true
 ∧ ∃ p m, p ∈ patterns ∧ m ∈ findall p html_content
          ∧ u = clean_match html_unescape m)
∨ (∃ t, t ∈ findall bare_url html_content
        ∧ is_valid_redirect_url t = true ∧ u = html_unescape t).
Proof.
unfold _extract_redirect_from_warning_page.
rewrite try_patterns_head, collect_valid_filter.
destruct (head (filter valid _)) as [v|] eqn:Hhead.
- intros [= <-]. left.
  apply head_Some_elem_of, list_elem_of_filter in Hhead as [Hv Hin].
  split; [done|].
  apply list_elem_of_fmap in Hin as (m & -> & Hm).
  apply list_elem_of_bind in Hm as (p & Hm & Hp).
  by exists p, m.
- destruct (filter valid (findall bare_url html_content)) as [|t ts] eqn:Hf;
    [done|].
  intros [= <-]. right. exists t.
  assert (Hin : t ∈ filter valid (findall bare_url html_content))
    by (rewrite Hf; left).
  apply list_elem_of_filter in Hin as [Hv Hin]. by repeat split.
Qed.

(** X17. The extractor returns nothing exactly when no cleaned match of
  a strategy pattern and no bare token passes the validity check. *)
Theorem extractor_fails_iff_no_valid_candidate (html_content : str) :
extract html_content = None
↔ (∀ p m, p ∈ patterns → m ∈ findall p html_content →
          is_valid_redirect_url (clean_match html_unescape m) = false)
  ∧ (∀ t, t ∈ findall bare_url html_content →
          is_valid_redirect_url t = false).
Proof.
unfold _extract_redirect_from_warning_page.
rewrite try_patterns_head, collect_valid_filter.
split.
- destruct (head (filter valid _)) as [v|] eqn:Hhead; [done|].
  destruct (filter valid (findall bare_url html_content)) as [|t ts] eqn:Hf;
    [|done].
  intros _. apply head_None in Hhead. split.
  + intros p m Hp Hm. apply not_true_iff_false. intros Hv.
    assert (Hin : clean_match html_unescape m
                  ∈ filter valid
                      (clean_match html_unescape
                         <$> (patterns ≫= λ p, findall p html_content))).
    { apply list_elem_of_filter. split; [done|].
      apply list_elem_of_fmap. exists m. split; [done|].
      apply list_elem_of_bind. by exists p. }
    rewrite Hhead in Hin. by apply elem_of_nil in Hin.
  + intros t Ht. apply not_true_iff_false. intros Hv.
    assert (Hin : t ∈ filter valid (findall bare_url html_content))
      by (by apply list_elem_of_filter).
    rewrite Hf in Hin. by apply elem_of_nil in Hin.
- intros [H1 H2].
  assert (Hn1 : filter valid
                  (clean_match html_unescape
                     <$> (patterns ≫= λ p, findall p html_content)) = []).
  { apply elem_of_nil_inv. intros v [Hv Hin]%list_elem_of_filter.
    apply list_elem_of_fmap in Hin as (m & -> & Hm).
    apply list_elem_of_bind in Hm as (p & Hm & Hp).
    rewrite (H1 p m Hp Hm) in Hv. done. }
  assert (Hn2 : filter valid (findall bare_url html_content) = []).
  { apply elem_of_nil_inv. intros t [Hv Hin]%list_elem_of_filter.
    rewrite (H2 t Hin) in Hv. done. }
  by rewrite Hn1, Hn2.
Qed.

End Classifier.

(** X18. A text that holds none of the four escaped separators is left
    as it is by the separator decoding. *)
Theorem unescape_separators_keeps_plain_text (url : str) :
  str_in (lit "\u003d") url = false →
  str_in (lit "\u0026") url = false →
  str_in (lit "%3D") url = false →
  str_in (lit "%26") url = false →
  unescape_separators url = url.
Proof.
  intros H1 H2 H3 H4. unfold unescape_separators, str_replace.
  by rewrite (replace_go_absent _ _ url H1), (replace_go_absent _ _ url H2),
       (replace_go_absent _ _ url H3), (replace_go_absent _ _ url H4).
Qed.

(** ** The command line *)

Section CommandLine.

Variable html_unescape : str → str.
Variable session_get : str → py_result response.
Variable strftime : nat → str.

Local Abbreviation resolve := (resolve_goo_gl_url html_unescape session_get).
Local Abbreviation run := (main html_unescape session_get strftime).

(** X19. With a non-empty [--test-url], [main] resolves that URL once
  and leaves the sequencer alone: the ledger is what the output path
  held, or a new header row, followed by one record for the URL, or by
  nothing when [--no-404] is given and the status is a not-found one;
  both counters stay at 0, whatever [--length] and [--start-from]
  are. *)
Theorem single_test_mode (file : option (list row)) (a : args)
  (test_url : str) :
args_test_url a = Some test_url → test_url ≠ [] →
∃ sc', run file a = Return sc'
       ∧ ledger_rows sc'
         = default [header_row] file
           ++ (if args_no_404 a && not_found_status (resolve test_url).2
               then []
               else [[test_url; (resolve test_url).1; (resolve test_url).2;
                      strftime 0%nat]])
       ∧ processed_count sc' = 0 ∧ found_count sc' = 0.
Proof.
intros Hurl Hne. unfold main. rewrite Hurl.
assert (Htr : truthy test_url = true) by (by destruct test_url).
rewrite Htr. destruct (resolve test_url) as [destination status].
eexists. split; [reflexivity|]. cbn [fst snd].
unfold save_result, new_scanner, _initialize_csv, ledger_rows, append_row.
destruct file as [rows|];
  cbn [output_file skip_404 processed_count found_count clock];
  destruct (args_no_404 a && not_found_status status);
  cbn [output_file skip_404 processed_count found_count clock default
         from_option id];
  by rewrite ?app_nil_r.
Qed.

(** X20. A first run of [main] in scan mode, with no file at the output
  path and no [--start-from], creates the ledger with its header row
  and processes all [62^L] identifiers. *)
Theorem first_run_scans_everything (a : args) :
args_test_url a = None → args_start_from a = None →
∃ sc' new, run None a = Return sc'
           ∧ processed_count sc' = 62 ^ Z.of_nat (args_length a)
           ∧ ledger_rows sc' = header_row :: new.
Proof.
intros Hurl Hstart. unfold main. rewrite Hurl, Hstart.
set (sc := new_scanner None (args_no_404 a)).
assert (Hres : resume_point sc (args_length a) None = None) by done.
rewrite (scan_without_resume_point html_unescape session_get strftime
           sc (args_length a) None Hres).
set (st := {| self := sc; found_start := true; current_index := 0 |}).
destruct (scan_loop_counts html_unescape session_get strftime None
            (product chars (args_length a)) st eq_refl) as [Hp _].
destruct (scan_loop_appends html_unescape session_get strftime None
            (product chars (args_length a)) st) as (new & Hrows & _).
exists (self (scan_loop html_unescape session_get strftime None st
                (product chars (args_length a)))), new.
split; [done|]. split.
- rewrite Hp, product_length. cbn [self st sc processed_count]. simpl.
  by rewrite Nat2Z.inj_pow.
- by rewrite Hrows.
Qed.

End CommandLine.

(** ** Statuses, and scans that follow one another *)

Lemma record_identifier_other_length (L : nat) (x : str) (r : row) :
  record_identifier r = Some x → length x ≠ L →
  filter (λ s, length s = L) (omap record_identifier [r]) = [].
Proof.
  intros Hid Hlen. rewrite (omap_singleton _ _ x Hid).
  by rewrite filter_cons, decide_False.
Qed.

(** X21. A record for an identifier of another length does not move the
    resume point: after [save_result] has written, within the field
    size limit of [csv], the result for an identifier of length [L'],
    the resume point for a length [L] other than [L'] is what it was. *)
Theorem other_length_keeps_resume_point (strftime : nat → str) (sc : scanner)
    (L L' : nat) (x destination_url status : str) (header : row)
    (records : list row) :
  identifier L' x → L' ≠ L →
  output_file sc = Some (header :: records) →
  row_readable [lit "https://goo.gl/" ++ x; destination_url; status;
                strftime (clock sc)] = true →
  _find_last_processed_url
    (save_result strftime sc (lit "https://goo.gl/" ++ x) destination_url status)
    L
  = _find_last_processed_url sc L.
Proof.
  intros [Hlen Hv] HL Hfile Hrow. unfold save_result.
  destruct (skip_404 sc && not_found_status status); [done|].
  unfold _find_last_processed_url, append_row. cbn [output_file].
  rewrite Hfile. cbn [default from_option id app].
  destruct (row_readable header); [|done].
  rewrite !read_records_fold, forallb_app. cbn [forallb].
  rewrite Hrow. cbn [andb]. rewrite andb_true_r.
  destruct (forallb row_readable records); [|done].
  rewrite !fold_last_url_step, omap_app, filter_app.
  rewrite (record_identifier_other_length L x _
             (record_identifier_short_url x _ Hv)) by lia.
  by rewrite app_nil_r.
Qed.

Section Sequel.

Variable html_unescape : str → str.
Variable session_get : str → py_result response.
Variable strftime : nat → str.

Local Abbreviation resolve := (resolve_goo_gl_url html_unescape session_get).
Local Abbreviation round := (scan_round html_unescape session_get strftime).
Local Abbreviation loop := (scan_loop html_unescape session_get strftime).
Local Abbreviation scan :=
(scan_url_combinations html_unescape session_get strftime).

(** X22. The status of a resolution is one of eleven fixed tags, or
  [http_error_] followed by the status code of a response whose code
  is none of 200, 301, 302, 303, 307, 308 and 404. *)
Theorem status_is_a_known_tag (short_url : str) :
(resolve short_url).2
  ∈ [ lit "link_not_found"; lit "resolved_from_warning";
      lit "warning_page_parse_failed"; lit "direct_200";
      lit "direct_redirect"; lit "redirect_without_location";
      lit "404_error"; lit "request_timeout"; lit "connection_failed";
      lit "request_exception"; lit "unexpected_error" ]
∨ ∃ r, session_get short_url = Return r
       ∧ (resolve short_url).2
         = lit "http_error_" ++ str_of_int (status_code r)
       ∧ status_code r ∉ [200; 301; 302; 303; 307; 308; 404].
Proof.
unfold resolve_goo_gl_url.
destruct (session_get short_url) as [r|e] eqn:Hget.
- destruct (Z.eqb_spec (status_code r) 200) as [H200|H200].
  + left.
    destruct (_ || _);
      [|destruct (_ || _);
        [destruct (_extract_redirect_from_warning_page _ _) as [u|];
         [destruct (truthy u)|]|]];
      cbn [snd]; apply (bool_decide_unpack _); by vm_compute.
  + destruct (bool_decide _) eqn:H3xx.
    * left. destruct (truthy _); cbn [snd];
        apply (bool_decide_unpack _); by vm_compute.
    * destruct (Z.eqb_spec (status_code r) 404) as [H404|H404].
      -- left. cbn [snd]. apply (bool_decide_unpack _). by vm_compute.
      -- right. exists r. split; [done|]. split; [done|].
         apply bool_decide_eq_false in H3xx.
         rewrite !not_elem_of_cons in H3xx.
         destruct H3xx as (? & ? & ? & ? & ? & ?).
         repeat (apply not_elem_of_cons; split; [done|]).
         apply not_elem_of_nil.
- left. destruct e; cbn [snd]; apply (bool_decide_unpack _); by vm_compute.
Qed.

Lemma scan_round_stays_started (start_from : option str) (st : loop_state)
  (x : str) :
found_start st = true →
found_start (round start_from st x) = true
∧ skip_404 (self (round start_from st x)) = skip_404 (self st).
Proof.
intros Hfs. unfold scan_round. rewrite Hfs. cbn [negb andb].
destruct (resolve _) as [d s]. cbn [found_start self].
unfold count_result, save_result. by destruct (_ && _).
Qed.

Lemma scan_loop_stays_started (start_from : option str) (combos : list str) :
∀ st, found_start st = true →
found_start (loop start_from st combos) = true
∧ skip_404 (self (loop start_from st combos)) = skip_404 (self st).
Proof.
induction combos as [|x combos IH]; intros st Hfs; [done|].
unfold scan_loop. simpl fold_left.
destruct (scan_round_stays_started start_from st x Hfs) as [Hfs1 Hsk1].
destruct (IH _ Hfs1) as [Hfs2 Hsk2]. unfold scan_loop in *.
split; [done|]. by rewrite Hsk2.
Qed.

(** The rows a loop adds can be read back when every record it may
  write is within the field size limit. *)
Lemma scan_loop_rows_readable (start_from : option str) (combos : list str) :
(∀ x n, x ∈ combos →
   row_readable [lit "https://goo.gl/" ++ x;
                 (resolve (lit "https://goo.gl/" ++ x)).1;
                 (resolve (lit "https://goo.gl/" ++ x)).2;
                 strftime n] = true) →
∀ st, ∃ new,
  ledger_rows (self (loop start_from st combos))
  = ledger_rows (self st) ++ new
  ∧ readable new = true.
Proof.
induction combos as [|x combos IH]; intros Hrows st.
- exists []. simpl. by rewrite app_nil_r.
- unfold scan_loop. simpl fold_left.
  destruct (IH (λ y n Hy, Hrows y n (list_elem_of_further _ _ _ Hy))
              (round start_from st x)) as (new2 & Hnew2 & Hread2).
  unfold scan_loop in Hnew2. rewrite Hnew2.
  assert (Hround : ∃ new1,
             ledger_rows (self (round start_from st x))
             = ledger_rows (self st) ++ new1 ∧ readable new1 = true).
  { unfold scan_round. destruct (negb (found_start st) && _).
    - exists []. cbn [self]. by rewrite app_nil_r.
    - pose proof (Hrows x (clock (self st)) ltac:(left)) as Hrow.
      destruct (resolve _) as [d s]. cbn [fst snd] in Hrow.
      cbn [self]. unfold count_result, save_result, ledger_rows, append_row.
      destruct (skip_404 (self st) && not_found_status s);
        cbn [output_file default from_option id].
      + exists []. by rewrite app_nil_r.
      + eexists [_]. split; [done|]. unfold readable. cbn [forallb].
        by rewrite Hrow. }
  destruct Hround as (new1 & -> & Hread1).
  exists (new1 ++ new2). split; [by rewrite app_assoc|].
  unfold readable in *. by rewrite forallb_app, Hread1, Hread2.
Qed.

(** The record a started loop writes last, without the skip flag. *)
Lemma scan_loop_last_record (start_from : option str) (pre : list str)
  (x : str) (st : loop_state) :
found_start st = true → skip_404 (self st) = false →
∃ rows rest,
  output_file (self (loop start_from st (pre ++ [x])))
  = Some (ledger_rows (self st) ++ rows
          ++ [(lit "https://goo.gl/" ++ x) :: rest]).
Proof.
intros Hfs Hskip. unfold scan_loop. rewrite fold_left_app. simpl fold_left.
fold (loop start_from st pre).
destruct (scan_loop_stays_started start_from pre st Hfs) as [Hfs1 Hsk1].
destruct (scan_loop_appends html_unescape session_get strftime start_from
            pre st) as (rows & Hrows & _).
rewrite Hskip in Hsk1.
unfold scan_round. rewrite Hfs1. cbn [negb andb].
destruct (resolve _) as [d s]. cbn [self count_result output_file].
unfold save_result. rewrite Hsk1. cbn [andb output_file]. unfold append_row.
fold (ledger_rows (self (loop start_from st pre))). rewrite Hrows.
eexists rows, _. by rewrite <- app_assoc.
Qed.

Lemma product_ends_with_last (L : nat) :
∃ pre, product chars L = pre ++ [replicate L last_symbol].
Proof.
pose proof (product_lookup chars (replicate L last_symbol)
              (proj2 (replicate_last_identifier L))) as Hlk.
rewrite length_replicate, ordinal_replicate_last in Hlk.
exists (take (Z.to_nat (62 ^ Z.of_nat L - 1)) (product chars L)).
rewrite <- (take_drop_middle _ _ _ Hlk) at 1. f_equal. f_equal.
apply drop_ge. rewrite product_length.
assert (Z.of_nat (length chars ^ L) = 62 ^ Z.of_nat L)
  by (by rewrite Nat2Z.inj_pow).
assert (0 < 62 ^ Z.of_nat L) by (apply Z.pow_pos_nonneg; lia). lia.
Qed.

(** X23. A scan that ran to its end without the skip flag leaves the
  last identifier as the resume point of its length, so an
  auto-resumed scan that follows finds no successor and starts again
  from the first identifier.  This is so when the ledger read back is
  within the field size limit of [csv], in the rows the scan found
  and in every record it may write. *)
Theorem completed_scan_restarts (sc : scanner) (L : nat)
  (start_from : option str) (header : row) (records : list row) :
(0 < L)%nat → skip_404 sc = false →
output_file sc = Some (header :: records) →
readable (header :: records) = true →
(∀ x n, x ∈ product chars L →
   row_readable [lit "https://goo.gl/" ++ x;
                 (resolve (lit "https://goo.gl/" ++ x)).1;
                 (resolve (lit "https://goo.gl/" ++ x)).2;
                 strftime n] = true) →
match resume_point sc L start_from with
| None => True
| Some s => identifier L s
end →
∃ sc', scan sc L start_from = Return sc'
       ∧ _find_last_processed_url sc' L = Some (replicate L last_symbol)
       ∧ resume_point sc' L None = None.
Proof.
intros HL Hskip Hfile Hread Hrows Hres.
destruct (product_ends_with_last L) as [pre Hpre].
assert (Hlastid : identifier L (replicate L last_symbol))
  by apply replicate_last_identifier.
assert (Hrun : ∃ start st combos,
           scan sc L start_from
           = Return (self (loop start st (combos ++ [replicate L last_symbol])))
           ∧ found_start st = true ∧ self st = sc
           ∧ ∀ x, x ∈ combos ++ [replicate L last_symbol]
                  → x ∈ product chars L).
{ destruct (resume_point sc L start_from) as [s|] eqn:Hrp.
  - rewrite (scan_from_identifier html_unescape session_get strftime
               sc L start_from s Hrp Hres).
    pose proof (ordinal_bounds chars s (proj2 Hres)) as Hb.
    rewrite (proj1 Hres), len_chars in Hb.
    assert (Hlen : length pre = Z.to_nat (62 ^ Z.of_nat L - 1)).
    { pose proof (product_length chars L) as Hpl.
      rewrite Hpre, length_app in Hpl.
      change (length [replicate L last_symbol]) with 1%nat in Hpl.
      assert (Z.of_nat (length chars ^ L) = 62 ^ Z.of_nat L)
        by (by rewrite Nat2Z.inj_pow). lia. }
    assert (Hdrop : drop (Z.to_nat (ordinal chars s)) (product chars L)
                    = drop (Z.to_nat (ordinal chars s)) pre
                      ++ [replicate L last_symbol]).
    { rewrite Hpre, drop_app_le by lia. done. }
    rewrite Hdrop. eexists _, _, _. split; [done|]. split; [done|].
    split; [done|]. intros x Hx. rewrite <- Hdrop in Hx.
    by apply (subseteq_drop (Z.to_nat (ordinal chars s)) (product chars L)).
  - rewrite (scan_without_resume_point html_unescape session_get strftime
               sc L start_from Hrp), Hpre.
    eexists _, _, _. split; [done|]. split; [done|]. split; [done|].
    by intros x Hx. }
destruct Hrun as (start & st & combos & -> & Hfs & Hself & Hsub).
eexists. split; [reflexivity|].
assert (Hskip' : skip_404 (self st) = false) by (by rewrite Hself).
destruct (scan_loop_last_record start combos (replicate L last_symbol) st
            Hfs Hskip') as (rows & rest & Hout).
destruct (scan_loop_rows_readable start
            (combos ++ [replicate L last_symbol])
            (λ x n Hx, Hrows x n (Hsub x Hx)) st) as (new & Hnew & Hnewread).
unfold ledger_rows in Hnew. rewrite Hout in Hnew.
cbn [default from_option id] in Hnew.
apply app_inv_head in Hnew. subst new.
rewrite Hself in Hout. unfold ledger_rows in Hout. rewrite Hfile in Hout.
cbn [default from_option id] in Hout. rewrite <- app_comm_cons in Hout.
unfold readable in Hread, Hnewread. cbn [forallb] in Hread.
apply andb_true_iff in Hread as [Hhead Hrest].
assert (Hfind : _find_last_processed_url
                  (self (loop start st (combos ++ [replicate L last_symbol])))
                  L
                = Some (replicate L last_symbol)).
{ unfold _find_last_processed_url. rewrite Hout, Hhead.
  rewrite read_records_fold, forallb_app, Hrest, Hnewread. cbn [andb].
  rewrite fold_last_url_step, app_assoc, omap_app, filter_app, last_app.
  rewrite (omap_singleton _ _ _
             (record_identifier_short_url _ rest (proj2 Hlastid))).
  rewrite filter_cons, decide_True by apply length_replicate.
  rewrite filter_nil. cbn [last].
  destruct L; [lia|done]. }
split; [done|].
unfold resume_point. rewrite Hfind.
assert (Htr : truthy (replicate L last_symbol) = true)
  by (destruct L; [lia|done]).
rewrite Htr.
destruct (successor_cases L _ Hlastid) as [[-> _]|(y & _ & Hy & Hval)];
  [done|].
rewrite ordinal_replicate_last in Hval.
pose proof (ordinal_bounds chars y (proj2 Hy)) as Hby.
rewrite (proj1 Hy), len_chars in Hby. lia.
Qed.

End Sequel.

(** ** Instances of the further properties *)

Lemma identifier_a9 : identifier 2 (lit "a9").
Proof. split; [reflexivity|]. apply (bool_decide_unpack _). by vm_compute. Defined.

Lemma index_injective_witness :
  identifier 2 (lit "a9")
  ∧ _url_suffix_to_index (lit "a9") chars 2
    = _url_suffix_to_index (lit "a9") chars 2
  ∧ lit "a9" = lit "a9".
Proof.
  split; [exact identifier_a9|]. split; [reflexivity|].
  exact (index_injective 2 (lit "a9") (lit "a9") identifier_a9 identifier_a9
           eq_refl).
Defined.

Lemma successor_is_identifier_witness :
  identifier 2 (lit "a9")
  ∧ _get_next_url_suffix (lit "a9") chars 2 = Some (lit "ba")
  ∧ identifier 2 (lit "ba")
  ∧ _url_suffix_to_index (lit "ba") chars 2
    = _url_suffix_to_index (lit "a9") chars 2 + 1.
Proof.
  split; [exact identifier_a9|]. split; [reflexivity|].
  exact (successor_is_identifier 2 (lit "a9") (lit "ba") identifier_a9 eq_refl).
Defined.

Lemma resume_point_comes_from_a_record_witness :
  _find_last_processed_url (sample_scanner false) 6 = Some (lit "aaaaaa")
  ∧ length (lit "aaaaaa") = 6%nat.
Proof.
  split; [reflexivity|].
  exact (proj1 (resume_point_comes_from_a_record (sample_scanner false) 6
                  (lit "aaaaaa") eq_refl)).
Defined.

Lemma identifier_aaaaac : identifier 6 (lit "aaaaac").
Proof. split; [reflexivity|]. apply (bool_decide_unpack _). by vm_compute. Defined.

Lemma saved_identifier_is_resume_point_witness :
  (0 < 6)%nat ∧ identifier 6 (lit "aaaaac")
  ∧ output_file (sample_scanner false) = Some sample_ledger
  ∧ readable sample_ledger = true
  ∧ row_readable [lit "https://goo.gl/" ++ lit "aaaaac"; lit "TIMEOUT";
                  lit "request_timeout";
                  frozen_clock (clock (sample_scanner false))] = true
  ∧ _find_last_processed_url
      (save_result frozen_clock (sample_scanner false)
         (lit "https://goo.gl/" ++ lit "aaaaac") (lit "TIMEOUT")
         (lit "request_timeout")) 6
    = Some (lit "aaaaac").
Proof.
  split; [lia|]. split; [exact identifier_aaaaac|]. split; [reflexivity|].
  split; [reflexivity|]. split; [reflexivity|].
  apply (saved_identifier_is_resume_point frozen_clock (sample_scanner false) 6
           (lit "aaaaac") (lit "TIMEOUT") (lit "request_timeout") header_row
           (tail sample_ledger)).
  - lia.
  - exact identifier_aaaaac.
  - reflexivity.
  - reflexivity.
  - reflexivity.
  - reflexivity.
Defined.

Lemma other_length_keeps_resume_point_witness :
  identifier 6 (lit "aaaaac") ∧ 6%nat ≠ 3%nat
  ∧ row_readable [lit "https://goo.gl/" ++ lit "aaaaac"; lit "TIMEOUT";
                  lit "request_timeout";
                  frozen_clock (clock (sample_scanner false))] = true
  ∧ _find_last_processed_url
      (save_result frozen_clock (sample_scanner false)
         (lit "https://goo.gl/" ++ lit "aaaaac") (lit "TIMEOUT")
         (lit "request_timeout")) 3
    = _find_last_processed_url (sample_scanner false) 3.
Proof.
  split; [exact identifier_aaaaac|]. split; [lia|]. split; [reflexivity|].
  apply (other_length_keeps_resume_point frozen_clock (sample_scanner false) 3 6
           (lit "aaaaac") (lit "TIMEOUT") (lit "request_timeout") header_row
           (tail sample_ledger)).
  - exact identifier_aaaaac.
  - lia.
  - reflexivity.
  - reflexivity.
Defined.

Lemma scan_from_scratch_processes_all_witness :
  resume_point (sample_scanner false) 1 None = None
  ∧ ∃ sc', scan_url_combinations unescape_plain (always (Raise Timeout))
             frozen_clock (sample_scanner false) 1 None = Return sc'
           ∧ processed_count sc'
             = processed_count (sample_scanner false) + 62 ^ Z.of_nat 1.
Proof.
  split; [reflexivity|].
  exact (scan_from_scratch_processes_all unescape_plain
           (always (Raise Timeout)) frozen_clock (sample_scanner false) 1 None
           eq_refl).
Defined.

Lemma identifier_8 : identifier 1 (lit "8").
Proof. split; [reflexivity|]. apply (bool_decide_unpack _). by vm_compute. Defined.

Lemma scan_resumes_at_identifier_witness :
  resume_point (sample_scanner false) 1 (Some (lit "8")) = Some (lit "8")
  ∧ identifier 1 (lit "8")
  ∧ ∃ sc', scan_url_combinations unescape_plain (always (Raise Timeout))
             frozen_clock (sample_scanner false) 1 (Some (lit "8"))
           = Return sc'
           ∧ processed_count sc'
             = processed_count (sample_scanner false)
               + (62 ^ Z.of_nat 1 - _url_suffix_to_index (lit "8") chars 1).
Proof.
  split; [reflexivity|]. split; [exact identifier_8|].
  destruct (scan_resumes_at_identifier unescape_plain (always (Raise Timeout))
              frozen_clock (sample_scanner false) 1 (Some (lit "8")) (lit "8")
              eq_refl identifier_8) as (sc' & Hrun & Hp & _).
  by exists sc'.
Defined.

Lemma scan_with_foreign_start_does_nothing_witness :
  resume_point (sample_scanner false) 2 (Some (lit "a-")) = Some (lit "a-")
  ∧ ¬ identifier 2 (lit "a-")
  ∧ scan_url_combinations unescape_plain (always (Raise Timeout)) frozen_clock
      (sample_scanner false) 2 (Some (lit "a-"))
    = Return (sample_scanner false).
Proof.
  assert (H : ¬ identifier 2 (lit "a-")).
  { intros [_ Hv]. revert Hv. apply (bool_decide_unpack _). by vm_compute. }
  split; [reflexivity|]. split; [exact H|].
  exact (scan_with_foreign_start_does_nothing unescape_plain
           (always (Raise Timeout)) frozen_clock (sample_scanner false) 2
           (Some (lit "a-")) (lit "a-") eq_refl H).
Defined.

Lemma auto_resume_continues_after_last_record_witness :
  _find_last_processed_url (new_scanner (Some resumed_ledger) false) 1
    = Some (lit "8")
  ∧ identifier 1 (lit "8")
  ∧ ∃ sc', scan_url_combinations unescape_plain (always (Raise Timeout))
             frozen_clock (new_scanner (Some resumed_ledger) false) 1 None
           = Return sc'
           ∧ processed_count sc'
             = processed_count (new_scanner (Some resumed_ledger) false)
               + (if decide (lit "8" = replicate 1 last_symbol)
                  then 62 ^ Z.of_nat 1
                  else 62 ^ Z.of_nat 1 - 1
                       - _url_suffix_to_index (lit "8") chars 1).
Proof.
  split; [reflexivity|]. split; [exact identifier_8|].
  exact (auto_resume_continues_after_last_record unescape_plain
           (always (Raise Timeout)) frozen_clock
           (new_scanner (Some resumed_ledger) false) 1 (lit "8") eq_refl
           identifier_8).
Defined.

Lemma resolved_from_warning_is_extracted_witness :
  (resolve_goo_gl_url unescape_plain (always (Return (page warning_body)))
     (lit "https://goo.gl/aaaaaa")).2
    = lit "resolved_from_warning"
  ∧ _extract_redirect_from_warning_page unescape_plain warning_body
    = Some (lit "https://example.org/landing").
Proof.
  split; [by vm_compute|].
  destruct (resolved_from_warning_is_extracted unescape_plain
              (always (Return (page warning_body)))
              (lit "https://goo.gl/aaaaaa") ltac:(by vm_compute))
    as (r & Hget & _ & _ & _ & Hex & _).
  injection Hget as <-. exact Hex.
Defined.

Lemma extracted_url_is_a_valid_candidate_witness :
  _extract_redirect_from_warning_page unescape_plain warning_body
    = Some (lit "https://example.org/landing")
  ∧ ((is_valid_redirect_url (lit "https://example.org/landing") = true
      ∧ ∃ p m, p ∈ patterns ∧ m ∈ findall p warning_body
               ∧ lit "https://example.org/landing"
                 = clean_match unescape_plain m)
     ∨ (∃ t, t ∈ findall bare_url warning_body
             ∧ is_valid_redirect_url t = true
             ∧ lit "https://example.org/landing" = unescape_plain t)).
Proof.
  split; [by vm_compute|].
  exact (extracted_url_is_a_valid_candidate unescape_plain warning_body
           (lit "https://example.org/landing") ltac:(by vm_compute)).
Defined.

Lemma unescape_separators_keeps_plain_text_witness :
  unescape_separators (lit "https://example.org/a?b=1&c=2")
  = lit "https://example.org/a?b=1&c=2".
Proof.
  apply unescape_separators_keeps_plain_text; reflexivity.
Defined.

Lemma single_test_mode_witness :
  args_test_url test_args = Some (lit "https://goo.gl/aaaaaa")
  ∧ lit "https://goo.gl/aaaaaa" ≠ []
  ∧ ∃ sc', main unescape_plain
             (always (Return {| status_code := 404; headers := []; text := [];
                                url := lit "https://goo.gl/aaaaaa" |}))
             frozen_clock None test_args = Return sc'
           ∧ ledger_rows sc' = [header_row]
           ∧ processed_count sc' = 0 ∧ found_count sc' = 0.
Proof.
  split; [reflexivity|]. split; [done|].
  exact (single_test_mode unescape_plain
           (always (Return {| status_code := 404; headers := []; text := [];
                              url := lit "https://goo.gl/aaaaaa" |}))
           frozen_clock None test_args (lit "https://goo.gl/aaaaaa") eq_refl
           ltac:(done)).
Defined.

Lemma first_run_scans_everything_witness :
  args_test_url scan_args = None ∧ args_start_from scan_args = None
  ∧ ∃ sc' new, main unescape_plain (always (Raise Timeout)) frozen_clock None
                 scan_args = Return sc'
               ∧ processed_count sc' = 62 ^ Z.of_nat (args_length scan_args)
               ∧ ledger_rows sc' = header_row :: new.
Proof.
  split; [reflexivity|]. split; [reflexivity|].
  exact (first_run_scans_everything unescape_plain (always (Raise Timeout))
           frozen_clock scan_args eq_refl eq_refl).
Defined.

Lemma timeout_records_readable (x : str) (n : nat) :
  x ∈ product chars 1 →
  row_readable
    [lit "https://goo.gl/" ++ x;
     (resolve_goo_gl_url unescape_plain (always (Raise Timeout))
        (lit "https://goo.gl/" ++ x)).1;
     (resolve_goo_gl_url unescape_plain (always (Raise Timeout))
        (lit "https://goo.gl/" ++ x)).2;
     frozen_clock n] = true.
Proof.
  intros Hx. apply product_elem_length in Hx.
  destruct x as [|c [|d x]]; [done| |done]. by vm_compute.
Defined.

Lemma completed_scan_restarts_witness :
  (0 < 1)%nat ∧ skip_404 (sample_scanner false) = false
  ∧ output_file (sample_scanner false) = Some sample_ledger
  ∧ readable sample_ledger = true
  ∧ resume_point (sample_scanner false) 1 None = None
  ∧ ∃ sc', scan_url_combinations unescape_plain (always (Raise Timeout))
             frozen_clock (sample_scanner false) 1 None = Return sc'
           ∧ _find_last_processed_url sc' 1 = Some (replicate 1 last_symbol)
           ∧ resume_point sc' 1 None = None.
Proof.
  split; [lia|]. split; [reflexivity|]. split; [reflexivity|].
  split; [reflexivity|]. split; [reflexivity|].
  apply (completed_scan_restarts unescape_plain (always (Raise Timeout))
           frozen_clock (sample_scanner false) 1 None header_row
           (tail sample_ledger)).
  - lia.
  - reflexivity.
  - reflexivity.
  - reflexivity.
  - exact timeout_records_readable.
  - exact I.
Defined.
